(** * Signals over Redis streams: [python/ray/experimental/signal.py]

    A shallow embedding of the module's four entry points ([send],
    [receive], [forget], [reset]) and of the helper [_get_task_id],
    followed by the properties of the consumption protocol.

    Conventions of the embedding.
    - Python [bytes] and ASCII [str] values are Rocq [string]s (sequences
      of 8-bit characters).
    - A Redis entry id ([b"1518951480106-0"], the cursor [b"0"]) is a
      natural number; only the total order and the initial cursor matter.
    - The timeout is a rational number; [None] is [None].
    - The command strings handed to [redis_client.execute_command]
      (["XADD key * signal value"], ["XREAD BLOCK ms STREAMS keys ids"])
      are kept in parsed form as a [Command].
    - An exception is the [Raise] outcome of a computation; whatever a
      computation wrote to the worker's state before raising stays
      written, as it does for the Python dictionary. *)

From Stdlib Require Import QArith Ascii String Sorted.
From stdpp Require Import gmap strings list.

Local Open Scope string_scope.
Local Open Scope N_scope.

(** ** Hexadecimal encoding ([ray.utils.binary_to_hex], [hex_to_binary]) *)

Module Hex.

Definition hex_digit (n : N) : ascii :=
  match n with
  | 0 => "0" | 1 => "1" | 2 => "2" | 3 => "3" | 4 => "4" | 5 => "5"
  | 6 => "6" | 7 => "7" | 8 => "8" | 9 => "9" | 10 => "a" | 11 => "b"
  | 12 => "c" | 13 => "d" | 14 => "e" | _ => "f"
  end%char.

Definition hexlify_byte (c : ascii) : string :=
  let n := N_of_ascii c in
  String (hex_digit (n / 16)) (String (hex_digit (n mod 16)) EmptyString).

(** [binascii.hexlify]: two lower-case digits per byte. *)
Fixpoint binary_to_hex (b : string) : string :=
  match b with
  | EmptyString => EmptyString
  | String c b' => hexlify_byte c +:+ binary_to_hex b'
  end.

Definition hex_value (c : ascii) : option N :=
  let n := N_of_ascii c in
  if (48 <=? n) && (n <=? 57) then Some (n - 48)
  else if (97 <=? n) && (n <=? 102) then Some (n - 87)
  else if (65 <=? n) && (n <=? 70) then Some (n - 55)
  else None.

(** [binascii.unhexlify]: [None] stands for the [binascii.Error] raised on
    an odd length or on a character that is not a hexadecimal digit. *)
Fixpoint hex_to_binary (h : string) : option string :=
  match h with
  | EmptyString => Some EmptyString
  | String _ EmptyString => None
  | String hi (String lo h') =>
      match hex_value hi, hex_value lo, hex_to_binary h' with
      | Some a, Some b, Some r => Some (String (ascii_of_N (16 * a + b)) r)
      | _, _, _ => None
      end
  end.

(** [bytes.decode("ascii")]: [None] stands for [UnicodeDecodeError]. *)
Definition decode_ascii (b : string) : option string :=
  if forallb (fun c => N_of_ascii c <? 128) (list_ascii_of_string b)
  then Some b else None.

End Hex.
Export Hex.

(** ** Identifiers, sources and signals *)

(** The binary form of a [TaskID], [ActorID] or [ObjectID]. *)
Abbreviation ID := string (only parsing).

(** [id.hex()] *)
Definition hex (i : ID) : string := binary_to_hex i.

(** Modelled from the spec: the class [ray.ObjectID] and
    [ray._raylet.compute_task_id] are not under src/.  A result handle
    "identifies the stream of the task that will produce it"; the handle
    carries that task's identity and the index of the return value. *)
Record ObjectID := { object_task : ID; object_index : N }.

(** Modelled from the spec: the class [ray.actor.ActorHandle] is not under
    src/.  The source reads the attribute [_actor_id]; the second field is
    the identity of "the task that created that actor", which the spec
    names and the source never reads. *)
Record ActorHandle := { _actor_id : ID; creator_task_id : ID }.

(** What a caller may put in [sources]: Python checks nothing before
    [_get_task_id] dispatches on [type(source)]. *)
Inductive Source :=
| SrcActorHandle (h : ActorHandle)
| SrcTaskID (t : ID)
| SrcObjectID (o : ObjectID)
| SrcOther (repr : string).

Inductive Signal :=
| ErrorSignal (error : string)
| ActorDiedSignal
| UserSignal (data : string).

Definition ACTOR_DIED_STR : string := "ACTOR_DIED_SIGNAL".

Inductive Exc :=
| ValueError (msg : string)
| UnsupportedSourceKind
| UnicodeDecodeError
| BinasciiError
| UnpicklingError.

Inductive result (A : Type) :=
| Return (a : A)
| Raise (e : Exc).
Arguments Return {A} a.
Arguments Raise {A} e.

(** Modelled from the spec: [ray._raylet.compute_task_id] is not under
    src/.  It maps a result handle to the task that produces it and
    "fails with UnsupportedSourceKind if the handle matches none of the
    above" (in Python, the type error of its typed parameter). *)
Definition compute_task_id (source : Source) : result ID :=
  match source with
  | SrcObjectID o => Return (object_task o)
  | _ => Raise UnsupportedSourceKind
  end.

Definition _get_task_id (source : Source) : result ID :=
  match source with
  | SrcActorHandle h => Return (_actor_id h)
  | SrcTaskID t => Return t
  | _ => compute_task_id source
  end.

(** ** The worker and the Redis server *)

(** [ray.worker.global_worker].  [actor_id = None] is the nil actor id;
    [signal_counters = None] is the attribute not being set yet. *)
Record Worker := {
  actor_id : option ID;
  current_task_id : ID;
  signal_counters : option (gmap string N)
}.

(** One stream entry [r]: [r[0]] is the id, [r[1][1]] the value of the
    only field, ["signal"]. *)
Record Entry := { entry_id : N; entry_value : string }.

Inductive Command :=
| XADD (key value : string)
| XREAD (block_ms : Z) (keys : list string) (ids : list N).

Inductive Reply :=
| ReplyId (id : N)
| ReplyStreams (answers : list (string * list Entry)).

(** The server: the streams, and the commands received so far. *)
Record Redis := {
  streams : gmap string (list Entry);
  issued : list Command
}.

Definition stream_of (rd : Redis) (key : string) : list Entry :=
  default [] (streams rd !! key).

Definition max_id (l : list Entry) : N :=
  fold_right (fun e m => N.max (entry_id e) m) 0 l.

Definition newer (cursor : N) (l : list Entry) : list Entry :=
  List.filter (fun e => cursor <? entry_id e) l.

Fixpoint xread (st : gmap string (list Entry)) (keys : list string)
    (ids : list N) : list (string * list Entry) :=
  match keys, ids with
  | k :: keys', c :: ids' =>
      match newer c (default [] (st !! k)) with
      | [] => xread st keys' ids'
      | es => (k, es) :: xread st keys' ids'
      end
  | _, _ => []
  end.

(** Modelled from the spec: the log store is not under src/.  [XADD key *]
    appends one entry under an id above every id of the stream; [XREAD]
    answers, stream by stream in the order asked, with the entries above
    the cursor given for the stream, leaving out the streams that have
    none.  No other client writes while the read blocks, so a read that
    finds nothing returns the empty answer when the block time is over. *)
Definition execute_command (c : Command) (rd : Redis) : Reply * Redis :=
  match c with
  | XADD key value =>
      let old := stream_of rd key in
      let id := N.succ (max_id old) in
      (ReplyId id,
       {| streams :=
            <[key := (old ++ [{| entry_id := id; entry_value := value |}])%list]>
              (streams rd);
          issued := (issued rd ++ [c])%list |})
  | XREAD _ keys ids =>
      (ReplyStreams (xread (streams rd) keys ids),
       {| streams := streams rd; issued := (issued rd ++ [c])%list |})
  end.

(** ** Computations of a worker *)

(** What a call can touch: the calling worker, the server, and (as a
    ghost record of the run) the stream values handed to the signal
    codec for decoding. *)
Record World := {
  worker : Worker;
  redis : Redis;
  unpickled : list string
}.

Definition M (A : Type) : Type := World -> result A * World.

Definition ret {A} (a : A) : M A := fun w => (Return a, w).

Definition raise {A} (e : Exc) : M A := fun w => (Raise e, w).

Definition bind {A B} (m : M A) (k : A -> M B) : M B :=
  fun w =>
    match m w with
    | (Return a, w') => k a w'
    | (Raise e, w') => (Raise e, w')
    end.

Notation "x <- m ;; k" := (bind m (fun x => k))
  (at level 100, m at next level, right associativity).
Notation "m ;;; k" := (bind m (fun _ => k))
  (at level 100, right associativity).

Definition lift {A} (e : Exc) (o : option A) : M A :=
  match o with
  | Some a => ret a
  | None => raise e
  end.

Definition lift_result {A} (r : result A) : M A := fun w => (r, w).

(** [for x in l: acc = body(x, acc)] *)
Fixpoint for_each {A B} (body : A -> B -> M B) (l : list A) (acc : B) : M B :=
  match l with
  | [] => ret acc
  | x :: l' => acc' <- body x acc ;; for_each body l' acc'
  end.

Definition counters_of (w : World) : gmap string N :=
  default ∅ (signal_counters (worker w)).

Definition with_counters (c : gmap string N) (w : World) : World :=
  {| worker := {| actor_id := actor_id (worker w);
                  current_task_id := current_task_id (worker w);
                  signal_counters := Some c |};
     redis := redis w;
     unpickled := unpickled w |}.

(** [if not hasattr(global_worker, "signal_counters"): ... = defaultdict(lambda: b"0")] *)
Definition init_signal_counters : M unit := fun w =>
  match signal_counters (worker w) with
  | Some _ => (Return tt, w)
  | None => (Return tt, with_counters ∅ w)
  end.

(** [signal_counters[key]] read: a [defaultdict] stores the default under
    a key it is asked for and does not have. *)
Definition get_counter (key : string) : M N := fun w =>
  match counters_of w !! key with
  | Some v => (Return v, w)
  | None => (Return 0, with_counters (<[key := 0]> (counters_of w)) w)
  end.

(** [signal_counters[key] = id] *)
Definition set_counter (key : string) (id : N) : M unit := fun w =>
  (Return tt, with_counters (<[key := id]> (counters_of w)) w).

Definition redis_execute (c : Command) : M Reply := fun w =>
  let (reply, rd) := execute_command c (redis w) in
  (Return reply,
   {| worker := worker w; redis := rd; unpickled := unpickled w |}).

Definition note_unpickled (value : string) : M unit := fun w =>
  (Return tt,
   {| worker := worker w; redis := redis w;
      unpickled := (unpickled w ++ [value])%list |}).

(** The cursor the worker holds for the stream of [i]: [b"0"] by default. *)
Definition cursor (wk : Worker) (i : ID) : N :=
  default 0 (default ∅ (signal_counters wk) !! i).

(** ** Timeouts *)

Definition Qltb (a b : Q) : bool := negb (Qle_bool b a).

(** [int(x)]: truncation towards zero. *)
Definition py_int (q : Q) : Z := Z.quot (Qnum q) (Zpos (Qden q)).

(** [if timeout is None: timeout = 10**12] *)
Definition timeout_or_huge (timeout : option Q) : Q :=
  match timeout with
  | None => inject_Z (10 ^ 12)
  | Some t => t
  end.

(** [if timeout < 1e-3: timeout = 1e-3], then [int(1000 * timeout)].
    The warning written to the logger is not modelled. *)
Definition timeout_ms (timeout : Q) : Z :=
  let timeout := if Qltb timeout (1 # 1000) then (1 # 1000)%Q else timeout in
  py_int (1000 * timeout).

(** ** [task_id_to_sources]: a [defaultdict(list)], in insertion order *)

Fixpoint append_source (key : string) (s : Source)
    (m : list (string * list Source)) : list (string * list Source) :=
  match m with
  | [] => [(key, [s])]
  | (k, l) :: m' =>
      if String.eqb key k then (k, (l ++ [s])%list) :: m'
      else (k, l) :: append_source key s m'
  end.

Fixpoint sources_of (key : string) (m : list (string * list Source))
    : list Source :=
  match m with
  | [] => []
  | (k, l) :: m' => if String.eqb key k then l else sources_of key m'
  end.

(** [for s in sources: task_id_to_sources[_get_task_id(s).hex()].append(s)] *)
Fixpoint map_sources (sources : list Source)
    (m : list (string * list Source)) : result (list (string * list Source)) :=
  match sources with
  | [] => Return m
  | s :: sources' =>
      match _get_task_id s with
      | Raise e => Raise e
      | Return t => map_sources sources' (append_source (hex t) s m)
      end
  end.

(** [[decode(signal_counters[hex_to_binary(task_id)]) for task_id in ...]] *)
Fixpoint read_counters (keys : list string) : M (list N) :=
  match keys with
  | [] => ret []
  | task_id :: keys' =>
      key <- lift BinasciiError (hex_to_binary task_id) ;;
      c <- get_counter key ;;
      cs <- read_counters keys' ;;
      ret (c :: cs)
  end.

Section Codec.

(** [cloudpickle.dumps] and [cloudpickle.loads]; [None] is any exception
    raised while unpickling. *)
Variable dumps : Signal -> string.
Variable loads : string -> option Signal.

Definition source_key (wk : Worker) : string :=
  match actor_id wk with
  | None => hex (current_task_id wk)
  | Some a => hex a
  end.

Definition send (signal : Signal) : M unit :=
  fun w =>
    let encoded_signal := binary_to_hex (dumps signal) in
    (redis_execute (XADD (source_key (worker w)) encoded_signal) ;;; ret tt) w.

(** The body of the innermost loop of [receive], for the entry [r] of the
    stream [task_id] and the source [s]. *)
Definition deliver (task_id : string) (r : Entry) (s : Source)
    (results : list (Source * Signal)) : M (list (Source * Signal)) :=
  text <- lift UnicodeDecodeError (decode_ascii (entry_value r)) ;;
  if String.eqb text ACTOR_DIED_STR then
    ret (results ++ [(s, ActorDiedSignal)])%list
  else
    key <- lift BinasciiError (hex_to_binary task_id) ;;
    set_counter key (entry_id r) ;;;
    note_unpickled (entry_value r) ;;;
    pickled <- lift BinasciiError (hex_to_binary (entry_value r)) ;;
    signal <- lift UnpicklingError (loads pickled) ;;
    ret (results ++ [(s, signal)])%list.

(** The body of [for i, answer in enumerate(answers)]. *)
Definition process_answer (task_id_to_sources : list (string * list Source))
    (answer : string * list Entry) (results : list (Source * Signal))
    : M (list (Source * Signal)) :=
  task_id <- lift UnicodeDecodeError (decode_ascii (fst answer)) ;;
  let task_source_list := sources_of task_id task_id_to_sources in
  for_each (fun r => for_each (deliver task_id r) task_source_list)
    (snd answer) results.

Definition receive (sources : list Source) (timeout : option Q)
    : M (list (Source * Signal)) :=
  let timeout := timeout_or_huge timeout in
  if Qltb timeout 0 then
    raise (ValueError "The 'timeout' argument cannot be less than 0.")
  else
    init_signal_counters ;;;
    task_id_to_sources <- lift_result (map_sources sources []) ;;
    let keys := map fst task_id_to_sources in
    ids <- read_counters keys ;;
    reply <- redis_execute (XREAD (timeout_ms timeout) keys ids) ;;
    match reply with
    | ReplyStreams (answer :: answers) =>
        for_each (process_answer task_id_to_sources) (answer :: answers) []
    | _ => ret []
    end.

Definition forget (sources : list Source) : M unit :=
  receive sources (Some 0%Q) ;;; ret tt.

Definition reset : M unit := fun w =>
  match signal_counters (worker w) with
  | Some _ => (Return tt, with_counters ∅ w)
  | None => (Return tt, w)
  end.

End Codec.

(** A small codec, to run the definitions on concrete worlds. *)
Module Sample.

Definition dumps (s : Signal) : string :=
  match s with
  | ErrorSignal e => String "E" e
  | ActorDiedSignal => "D"
  | UserSignal d => String "U" d
  end.

Definition loads (b : string) : option Signal :=
  match b with
  | String "E" e => Some (ErrorSignal e)
  | String "D" EmptyString => Some ActorDiedSignal
  | String "U" d => Some (UserSignal d)
  | _ => None
  end.

Definition consumer : Worker :=
  {| actor_id := None; current_task_id := "driver"; signal_counters := None |}.

Definition task : Worker :=
  {| actor_id := None; current_task_id := "t1"; signal_counters := None |}.

(** A worker running a method of the actor ["a1"], and a handle to that
    actor. *)
Definition actor : Worker :=
  {| actor_id := Some "a1"; current_task_id := "m7"; signal_counters := None |}.

Definition handle : Source :=
  SrcActorHandle {| _actor_id := "a1"; creator_task_id := "t0" |}.

Definition empty_redis : Redis := {| streams := ∅; issued := [] |}.

Definition world (wk : Worker) (rd : Redis) : World :=
  {| worker := wk; redis := rd; unpickled := [] |}.

(** The server after the node manager has published the death of the
    actor [i] ([PublishActorStateTransition] in node_manager.cc). *)
Definition died (i : ID) (rd : Redis) : Redis :=
  snd (execute_command (XADD (hex i) ACTOR_DIED_STR) rd).

(** The actor ["a1"] sent one signal and then died: its stream holds the
    pickled signal (entry 1) and the reserved string (entry 2). *)
Definition after_death : Redis :=
  died "a1" (redis (snd (send dumps (UserSignal "hi") (world actor empty_redis)))).

End Sample.

(** * Vocabulary of the properties *)

(** [keeps R m]: whatever [m] returns or raises, the world it leaves is
    related by [R] to the one it started from. *)
Definition keeps (R : World -> World -> Prop) {A} (m : M A) : Prop :=
  forall w, R w (snd (m w)).

(** [raises_only P m]: an exception [m] raises satisfies [P]. *)
Definition raises_only (P : Exc -> Prop) {A} (m : M A) : Prop :=
  forall w e, fst (m w) = Raise e -> P e.

(** The server is left alone. *)
Definition same_redis (w w' : World) : Prop := redis w' = redis w.

(** The codec was handed nothing more, or only values other than the
    reserved string. *)
Definition unpickled_more (w w' : World) : Prop :=
  exists values,
    unpickled w' = (unpickled w ++ values)%list
    /\ Forall (fun v => v <> ACTOR_DIED_STR) values.

(** Everything but the cursors is left alone, and the cursors read the
    same: at most an absent cursor was stored as the initial [0]. *)
Definition same_cursors (w w' : World) : Prop :=
  redis w' = redis w /\ unpickled w' = unpickled w
  /\ forall i, cursor (worker w') i = cursor (worker w) i.

(** The sources [_get_task_id] resolves. *)
Definition supported (s : Source) : bool :=
  match s with
  | SrcOther _ => false
  | _ => true
  end.

(** The cursors [receive] reads for the keys of [task_id_to_sources], and
    the answer of the server to the read it then issues. *)
Definition cursors_for (wk : Worker) (keys : list string) : list N :=
  map (fun key => cursor wk (default "" (hex_to_binary key))) keys.

Definition answers_for (w : World) (m : list (string * list Source))
    : list (string * list Entry) :=
  xread (streams (redis w)) (map fst m) (cursors_for (worker w) (map fst m)).

(** The signal an entry of the stream [task_id] stands for, as the body
    of the loop computes it. *)
Definition signal_of (loads : string -> option Signal)
    (task_id value : string) : result Signal :=
  match decode_ascii value with
  | None => Raise UnicodeDecodeError
  | Some text =>
      if String.eqb text ACTOR_DIED_STR then Return ActorDiedSignal
      else
        match hex_to_binary task_id, hex_to_binary value with
        | None, _ => Raise BinasciiError
        | Some _, None => Raise BinasciiError
        | Some _, Some pickled =>
            match loads pickled with
            | Some signal => Return signal
            | None => Raise UnpicklingError
            end
        end
  end.

(** One copy of the entry's signal for each source of its stream. *)
Definition copies (loads : string -> option Signal) (task_id : string)
    (srcs : list Source) (r : Entry) : list (Source * Signal) :=
  match signal_of loads task_id (entry_value r) with
  | Return signal => map (fun s => (s, signal)) srcs
  | Raise _ => []
  end.

(** Every signal of every answered stream, stream after stream and entry
    after entry, once for each source that resolves to the stream. *)
Definition fan_out (loads : string -> option Signal)
    (task_id_to_sources : list (string * list Source))
    (answers : list (string * list Entry)) : list (Source * Signal) :=
  flat_map
    (fun answer =>
       flat_map
         (copies loads (fst answer) (sources_of (fst answer) task_id_to_sources))
         (snd answer))
    answers.

(** An answer whose key and entries all decode. *)
Definition decodable (loads : string -> option Signal)
    (answer : string * list Entry) : Prop :=
  decode_ascii (fst answer) = Some (fst answer)
  /\ Forall
       (fun r => exists signal,
          signal_of loads (fst answer) (entry_value r) = Return signal)
       (snd answer).

(** The exceptions of the decoding loop: never the [ValueError] of the
    timeout check. *)
Definition decoding_error (e : Exc) : Prop :=
  e = UnicodeDecodeError \/ e = BinasciiError \/ e = UnpicklingError.

(** [world_blind m]: what [m] returns or raises does not depend on the
    world it runs in. *)
Definition world_blind {A} (m : M A) : Prop :=
  forall w w', fst (m w) = fst (m w').

(** [preserves P m]: [m] leaves a world where [P] holds in a world where
    [P] holds, whether it returns or raises. *)
Definition preserves (P : World -> Prop) {A} (m : M A) : Prop :=
  forall w, P w -> P (snd (m w)).

(** The entry carries the reserved string. *)
Definition reserved (r : Entry) : bool :=
  String.eqb (entry_value r) ACTOR_DIED_STR.

(** The cursor a stream is left with once [entries] went through the loop
    of [receive], starting from the cursor [c]. *)
Definition cursor_after (entries : list Entry) (c : N) : N :=
  fold_left (fun c r => if reserved r then c else entry_id r) entries c.

(** The entries an answer holds for the stream [key]. *)
Definition answered (key : string) (answers : list (string * list Entry))
    : list Entry :=
  flat_map (fun answer => if String.eqb (fst answer) key then snd answer else [])
    answers.

(** The ids of a stream grow from one entry to the next, as the ids the
    server gives do. *)
Definition increasing (l : list Entry) : Prop :=
  StronglySorted (fun a b => entry_id a < entry_id b) l.

(** The sources of [sources] that resolve to the id [i], in order. *)
Definition resolving_to (i : ID) (sources : list Source) : list Source :=
  List.filter
    (fun s =>
       match _get_task_id s with
       | Return t => String.eqb t i
       | Raise _ => false
       end)
    sources.

(** Streams to run the entry points on. *)
Module Examples.

(** The server after some client appended [value] to the stream of [i]. *)
Definition with_entry (i : ID) (value : string) (rd : Redis) : Redis :=
  snd (execute_command (XADD (hex i) value) rd).

(** The actor ["a1"] sent one signal. *)
Definition one_signal : Redis :=
  redis (snd (send Sample.dumps (UserSignal "hi")
                (Sample.world Sample.actor Sample.empty_redis))).

(** The stream of ["a1"] holds the hexadecimal form of ["X"], which
    [Sample.loads] does not read. *)
Definition unpicklable : Redis := with_entry "a1" "58" Sample.empty_redis.

(** The stream of ["a1"] holds one byte above 127. *)
Definition not_ascii : Redis :=
  with_entry "a1" (String "200"%char EmptyString) Sample.empty_redis.

End Examples.

(** * Properties *)

(** ** The hexadecimal encoding *)

Lemma hex_to_binary_hexlify (c : ascii) (h : string) :
  hex_to_binary (hexlify_byte c +:+ h) = String c <$> hex_to_binary h.
Proof.
  destruct c as [[] [] [] [] [] [] [] []];
    change (hex_to_binary (hexlify_byte ?c +:+ h))
      with (match hex_to_binary h with
            | Some r => Some (String c r)
            | None => None
            end);
    destruct (hex_to_binary h); reflexivity.
Qed.

Lemma hex_to_binary_hex (b : string) : hex_to_binary (binary_to_hex b) = Some b.
Proof.
  induction b as [|c b IH]; [reflexivity|].
  cbn [binary_to_hex]. rewrite hex_to_binary_hexlify, IH. reflexivity.
Qed.

Lemma hexlify_byte_ascii (c : ascii) (h : string) :
  forallb (fun c => N_of_ascii c <? 128)
    (list_ascii_of_string (hexlify_byte c +:+ h))
  = forallb (fun c => N_of_ascii c <? 128) (list_ascii_of_string h).
Proof. destruct c as [[] [] [] [] [] [] [] []]; reflexivity. Qed.

Lemma decode_ascii_hex (b : string) :
  decode_ascii (binary_to_hex b) = Some (binary_to_hex b).
Proof.
  unfold decode_ascii.
  enough (forallb (fun c => N_of_ascii c <? 128)
            (list_ascii_of_string (binary_to_hex b)) = true) as -> by reflexivity.
  induction b as [|c b IH]; [reflexivity|].
  cbn [binary_to_hex]. rewrite hexlify_byte_ascii. exact IH.
Qed.

Lemma hexlify_byte_head (c : ascii) (h : string) :
  hexlify_byte c +:+ h <> ACTOR_DIED_STR.
Proof.
  destruct c as [[] [] [] [] [] [] [] []]; discriminate.
Qed.

(** No hexadecimal encoding is the reserved string: its first character
    would be a capital letter. *)
Lemma binary_to_hex_not_reserved (b : string) : binary_to_hex b <> ACTOR_DIED_STR.
Proof.
  destruct b as [|c b]; [discriminate|]. apply hexlify_byte_head.
Qed.

Lemma decode_ascii_Some (b text : string) : decode_ascii b = Some text -> text = b.
Proof.
  unfold decode_ascii. destruct (forallb _ _); congruence.
Qed.

(** ** Timeouts *)

Lemma Qltb_lt (a b : Q) : Qltb a b = true <-> (a < b)%Q.
Proof.
  unfold Qltb. rewrite negb_true_iff. split.
  - intros H. apply Qnot_le_lt. intros Hle.
    apply Qle_bool_iff in Hle. congruence.
  - intros H. destruct (Qle_bool b a) eqn:E; [|reflexivity].
    apply Qle_bool_iff in E. exfalso. exact (Qlt_not_le _ _ H E).
Qed.

Lemma Qltb_ge (a b : Q) : Qltb a b = false <-> (b <= a)%Q.
Proof.
  unfold Qltb. rewrite negb_false_iff. apply Qle_bool_iff.
Qed.

Lemma timeout_ms_clamped (t : Q) : (t < 1 # 1000)%Q -> timeout_ms t = 1%Z.
Proof.
  intros H. unfold timeout_ms. apply Qltb_lt in H. rewrite H. reflexivity.
Qed.

(** The block time of a read is never zero. *)
Lemma timeout_ms_positive (t : Q) : (1 <= timeout_ms t)%Z.
Proof.
  unfold timeout_ms. destruct (Qltb t (1 # 1000)) eqn:E; [vm_compute; discriminate|].
  apply Qltb_ge in E. unfold Qle in E. cbn in E.
  unfold py_int. destruct t as [n d]. cbn in *.
  rewrite Z.quot_div_nonneg by lia.
  apply Z.div_le_lower_bound; lia.
Qed.

Lemma timeout_ms_huge : timeout_ms (timeout_or_huge None) = (10 ^ 15)%Z.
Proof. reflexivity. Qed.

(** ** Running a computation *)

Lemma run_eq {A} (m : M A) (w : World) (a : A) :
  fst (m w) = Return a -> m w = (Return a, snd (m w)).
Proof. destruct (m w) as [r w']. cbn. intros ->. reflexivity. Qed.

Lemma bind_run {A B} (m : M A) (k : A -> M B) (w w' : World) (a : A) :
  m w = (Return a, w') -> bind m k w = k a w'.
Proof. unfold bind. intros ->. reflexivity. Qed.

Lemma bind_raise {A B} (m : M A) (k : A -> M B) (w w' : World) (e : Exc) :
  m w = (Raise e, w') -> bind m k w = (Raise e, w').
Proof. unfold bind. intros ->. reflexivity. Qed.

(** ** What a computation leaves as it found it *)

Section Frames.

Variable R : World -> World -> Prop.
Hypothesis R_refl : forall w, R w w.
Hypothesis R_trans : forall a b c, R a b -> R b c -> R a c.

Lemma keeps_ret {A} (a : A) : keeps R (ret a).
Proof. intros w. apply R_refl. Qed.

Lemma keeps_raise {A} (e : Exc) : keeps R (@raise A e).
Proof. intros w. apply R_refl. Qed.

Lemma keeps_lift {A} (e : Exc) (o : option A) : keeps R (lift e o).
Proof. destruct o; [apply keeps_ret | apply keeps_raise]. Qed.

Lemma keeps_lift_result {A} (r : result A) : keeps R (lift_result r).
Proof. intros w. apply R_refl. Qed.

Lemma keeps_bind {A B} (m : M A) (k : A -> M B) :
  keeps R m -> (forall a, keeps R (k a)) -> keeps R (bind m k).
Proof.
  intros Hm Hk w. unfold bind. specialize (Hm w).
  destruct (m w) as [[a|e] w']; cbn in *; [|exact Hm].
  eapply R_trans; [exact Hm | apply Hk].
Qed.

Lemma keeps_for_each {A B} (body : A -> B -> M B) (l : list A) :
  (forall x acc, keeps R (body x acc)) -> forall acc, keeps R (for_each body l acc).
Proof.
  intros Hbody. induction l as [|x l IH]; intros acc; cbn [for_each].
  - apply keeps_ret.
  - apply keeps_bind; [apply Hbody | exact IH].
Qed.

End Frames.

Create HintDb frames.
#[local] Hint Resolve keeps_ret keeps_raise keeps_lift keeps_lift_result : frames.

Lemma same_redis_refl w : same_redis w w.
Proof. reflexivity. Qed.

Lemma same_redis_trans a b c : same_redis a b -> same_redis b c -> same_redis a c.
Proof. unfold same_redis. congruence. Qed.

Lemma unpickled_more_refl w : unpickled_more w w.
Proof. exists []. split; [symmetry; apply app_nil_r | constructor]. Qed.

Lemma unpickled_more_trans a b c :
  unpickled_more a b -> unpickled_more b c -> unpickled_more a c.
Proof.
  intros (v1 & E1 & F1) (v2 & E2 & F2). exists (v1 ++ v2)%list. split.
  - rewrite E2, E1. symmetry. apply app_assoc.
  - apply Forall_app. split; assumption.
Qed.

Lemma same_cursors_refl w : same_cursors w w.
Proof. repeat split. Qed.

Lemma same_cursors_trans a b c :
  same_cursors a b -> same_cursors b c -> same_cursors a c.
Proof.
  intros (R1 & U1 & C1) (R2 & U2 & C2).
  split; [congruence|]. split; [congruence|].
  intros i. rewrite C2. apply C1.
Qed.

#[local] Hint Resolve same_redis_refl same_redis_trans unpickled_more_refl
  unpickled_more_trans same_cursors_refl same_cursors_trans : frames.

Lemma init_signal_counters_same_cursors : keeps same_cursors init_signal_counters.
Proof.
  intros w. unfold init_signal_counters.
  destruct (signal_counters (worker w)) eqn:E; cbn; [apply same_cursors_refl|].
  repeat split. intros i. unfold cursor. cbn. rewrite E. reflexivity.
Qed.

Lemma get_counter_same_cursors key : keeps same_cursors (get_counter key).
Proof.
  intros w. unfold get_counter.
  destruct (counters_of w !! key) eqn:E; cbn; [apply same_cursors_refl|].
  repeat split. intros i. unfold cursor, counters_of in *. cbn.
  destruct (decide (key = i)) as [->|Hne].
  - rewrite lookup_insert_eq, E. reflexivity.
  - rewrite lookup_insert_ne by exact Hne. reflexivity.
Qed.

Lemma get_counter_value key w :
  fst (get_counter key w) = Return (cursor (worker w) key).
Proof.
  unfold get_counter, cursor, counters_of.
  destruct (default ∅ (signal_counters (worker w)) !! key); reflexivity.
Qed.

Lemma read_counters_same_cursors keys : keeps same_cursors (read_counters keys).
Proof.
  induction keys as [|k keys IH]; cbn [read_counters].
  - apply keeps_ret, same_cursors_refl.
  - repeat (apply keeps_bind; eauto using get_counter_same_cursors with frames;
            intros).
Qed.

(** ** Resolving the sources *)

Lemma get_task_id_unsupported s :
  supported s = false -> _get_task_id s = Raise UnsupportedSourceKind.
Proof. destruct s; cbn; intros H; try discriminate; reflexivity. Qed.

Lemma append_source_keys key s m :
  map fst (append_source key s m) = map fst m
  \/ map fst (append_source key s m) = (map fst m ++ [key])%list.
Proof.
  induction m as [|[k l] m IH]; cbn; [right; reflexivity|].
  destruct (String.eqb key k); cbn; [left; reflexivity|].
  destruct IH as [-> | ->]; [left | right]; reflexivity.
Qed.

(** Every key of [task_id_to_sources] is the hexadecimal form of an id. *)
Lemma map_sources_keys sources : forall m m' ids,
  map_sources sources m = Return m' ->
  map fst m = map hex ids ->
  exists ids', map fst m' = map hex ids'.
Proof.
  induction sources as [|s sources IH]; intros m m' ids Hm Hk; cbn in Hm.
  - exists ids. congruence.
  - destruct (_get_task_id s) as [t|e]; [|discriminate].
    destruct (append_source_keys (hex t) s m) as [E | E].
    + apply (IH _ _ ids Hm). congruence.
    + apply (IH _ _ (ids ++ [t])%list Hm).
      rewrite E, Hk, map_app. reflexivity.
Qed.

(** ** The steps of [receive] *)

Lemma init_signal_counters_run w :
  init_signal_counters w = (Return tt, snd (init_signal_counters w)).
Proof.
  unfold init_signal_counters. destruct (signal_counters (worker w)); reflexivity.
Qed.

Lemma read_counters_run ids : forall w,
  read_counters (map hex ids) w
  = (Return (map (cursor (worker w)) ids), snd (read_counters (map hex ids) w)).
Proof.
  induction ids as [|i ids IH]; intros w; [reflexivity|].
  apply run_eq. cbn [map read_counters].
  rewrite (bind_run _ _ w w i)
    by (unfold hex; rewrite hex_to_binary_hex; reflexivity).
  rewrite (bind_run _ _ _ _ _ (run_eq _ _ _ (get_counter_value i w))).
  rewrite (bind_run _ _ _ _ _ (IH _)). cbn.
  destruct (get_counter_same_cursors i w) as (_ & _ & Hc).
  f_equal. f_equal. apply map_ext. intros j. apply Hc.
Qed.

Lemma cursors_for_hex wk ids : cursors_for wk (map hex ids) = map (cursor wk) ids.
Proof.
  unfold cursors_for. rewrite map_map. apply map_ext. intros i.
  unfold hex. rewrite hex_to_binary_hex. reflexivity.
Qed.

Section Receive.

Variable loads : string -> option Signal.

(** Past the check of the timeout and the resolution of the sources,
    [receive] is one read followed by the decoding of its answer. *)
Lemma receive_run sources timeout w m :
  Qltb (timeout_or_huge timeout) 0 = false ->
  map_sources sources [] = Return m ->
  exists w1,
    same_cursors w w1
    /\ receive loads sources timeout w
       = for_each (process_answer loads m) (answers_for w m) []
           {| worker := worker w1;
              redis :=
                {| streams := streams (redis w);
                   issued :=
                     (issued (redis w)
                      ++ [XREAD (timeout_ms (timeout_or_huge timeout))
                            (map fst m) (cursors_for (worker w) (map fst m))])%list |};
              unpickled := unpickled w |}.
Proof.
  intros Ht Hm.
  destruct (map_sources_keys sources [] m [] Hm eq_refl) as [ids Hk].
  unfold answers_for. rewrite Hk, cursors_for_hex.
  pose proof (init_signal_counters_same_cursors w) as H0.
  set (w0 := snd (init_signal_counters w)) in *.
  pose proof (read_counters_same_cursors (map hex ids) w0) as H1.
  set (w1 := snd (read_counters (map hex ids) w0)) in *.
  exists w1. split; [eapply same_cursors_trans; eassumption|].
  unfold receive. rewrite Ht. unfold bind at 1.
  rewrite init_signal_counters_run. fold w0.
  unfold bind at 1. unfold lift_result. rewrite Hm.
  unfold bind at 1. rewrite Hk, read_counters_run. fold w1.
  destruct H0 as (R0 & U0 & C0). destruct H1 as (R1 & U1 & C1).
  assert (map (cursor (worker w0)) ids = map (cursor (worker w)) ids) as ->
    by (apply map_ext; intros j; apply C0).
  unfold bind, redis_execute. cbn [execute_command].
  rewrite R1, R0, U1, U0.
  destruct (xread _ _ _); reflexivity.
Qed.

(** A source that does not resolve stops [receive] before the read. *)
Lemma receive_unresolved sources timeout w e :
  Qltb (timeout_or_huge timeout) 0 = false ->
  map_sources sources [] = Raise e ->
  fst (receive loads sources timeout w) = Raise e
  /\ same_cursors w (snd (receive loads sources timeout w)).
Proof.
  intros Ht Hm. unfold receive. rewrite Ht.
  rewrite (bind_run _ _ _ _ _ (init_signal_counters_run w)).
  rewrite (bind_raise _ _ _ (snd (init_signal_counters w)) e)
    by (unfold lift_result; rewrite Hm; reflexivity).
  split; [reflexivity | apply init_signal_counters_same_cursors].
Qed.

End Receive.

(** ** Decoding the answers *)

Section Decoding.

Variable loads : string -> option Signal.

Lemma signal_of_reserved task_id :
  signal_of loads task_id ACTOR_DIED_STR = Return ActorDiedSignal.
Proof. reflexivity. Qed.

Lemma deliver_value task_id r s results w :
  fst (deliver loads task_id r s results w)
  = match signal_of loads task_id (entry_value r) with
    | Return signal => Return (results ++ [(s, signal)])%list
    | Raise e => Raise e
    end.
Proof.
  unfold deliver, signal_of, bind, lift, ret, raise, set_counter, note_unpickled.
  destruct (decode_ascii (entry_value r)) as [text|]; [|reflexivity].
  destruct (String.eqb text ACTOR_DIED_STR); [reflexivity|].
  destruct (hex_to_binary task_id); [|reflexivity].
  destruct (hex_to_binary (entry_value r)) as [pickled|]; [|reflexivity].
  destruct (loads pickled); reflexivity.
Qed.

Lemma for_sources_value task_id r srcs : forall results w,
  fst (for_each (deliver loads task_id r) srcs results w)
  = match srcs, signal_of loads task_id (entry_value r) with
    | [], _ => Return results
    | _ :: _, Return signal =>
        Return (results ++ map (fun s => (s, signal)) srcs)%list
    | _ :: _, Raise e => Raise e
    end.
Proof.
  induction srcs as [|s srcs IH]; intros results w; [reflexivity|].
  cbn [for_each]. unfold bind.
  pose proof (deliver_value task_id r s results w) as Hd.
  destruct (deliver loads task_id r s results w) as [[acc|e] w']; cbn in Hd.
  - rewrite IH.
    destruct (signal_of loads task_id (entry_value r)) as [signal|]; [|discriminate].
    injection Hd as ->. destruct srcs; cbn; [reflexivity|].
    rewrite <- app_assoc. reflexivity.
  - destruct (signal_of loads task_id (entry_value r)); [discriminate|].
    cbn. congruence.
Qed.

Lemma for_sources_returns task_id r srcs results results' w :
  fst (for_each (deliver loads task_id r) srcs results w) = Return results' ->
  results' = (results ++ copies loads task_id srcs r)%list.
Proof.
  rewrite for_sources_value. unfold copies.
  destruct srcs as [|s srcs].
  - intros [= <-]. destruct (signal_of _ _ _); symmetry; apply app_nil_r.
  - destruct (signal_of _ _ _); [|discriminate]. intros [= <-]. reflexivity.
Qed.

Lemma for_entries_returns task_id srcs entries : forall results results' w,
  fst (for_each (fun r => for_each (deliver loads task_id r) srcs)
         entries results w) = Return results' ->
  results' = (results ++ flat_map (copies loads task_id srcs) entries)%list.
Proof.
  induction entries as [|r entries IH]; intros results results' w; cbn [for_each].
  - intros [= <-]. symmetry. apply app_nil_r.
  - unfold bind.
    destruct (for_each (deliver loads task_id r) srcs results w)
      as [[acc|e] w'] eqn:E; [|discriminate].
    apply (f_equal fst), for_sources_returns in E. subst acc.
    intros H. apply IH in H.
    rewrite H. cbn [flat_map]. symmetry. apply app_assoc.
Qed.

Lemma process_answer_returns m answer results results' w :
  fst (process_answer loads m answer results w) = Return results' ->
  results'
  = (results
     ++ flat_map (copies loads (fst answer) (sources_of (fst answer) m))
          (snd answer))%list.
Proof.
  unfold process_answer, bind, lift.
  destruct (decode_ascii (fst answer)) as [task_id|] eqn:E; [|discriminate].
  apply decode_ascii_Some in E. subst task_id. cbn [ret].
  apply for_entries_returns.
Qed.

(** When the loop over the answers returns, it returns the fan-out. *)
Lemma process_answers_return m answers : forall results results' w,
  fst (for_each (process_answer loads m) answers results w) = Return results' ->
  results' = (results ++ fan_out loads m answers)%list.
Proof.
  induction answers as [|answer answers IH]; intros results results' w;
    cbn [for_each].
  - intros [= <-]. symmetry. apply app_nil_r.
  - unfold bind.
    destruct (process_answer loads m answer results w)
      as [[acc|e] w'] eqn:E; [|discriminate].
    apply (f_equal fst), process_answer_returns in E. subst acc.
    intros H. apply IH in H.
    rewrite H. unfold fan_out. cbn [flat_map]. symmetry. apply app_assoc.
Qed.

End Decoding.

Section Processing.

Variable loads : string -> option Signal.

Lemma keeps_weaken (R R' : World -> World -> Prop) {A} (m : M A) :
  (forall w w', R w w' -> R' w w') -> keeps R m -> keeps R' m.
Proof. intros HR Hm w. apply HR, Hm. Qed.

Lemma same_cursors_unpickled_more w w' : same_cursors w w' -> unpickled_more w w'.
Proof.
  intros (_ & U & _). exists []. split; [|constructor].
  rewrite U. symmetry. apply app_nil_r.
Qed.

Lemma deliver_same_redis task_id r s results :
  keeps same_redis (deliver loads task_id r s results).
Proof.
  intros w. unfold deliver, bind, lift, ret, raise, set_counter, note_unpickled.
  destruct (decode_ascii (entry_value r)) as [text|]; [|reflexivity].
  destruct (String.eqb text ACTOR_DIED_STR); [reflexivity|].
  destruct (hex_to_binary task_id); [|reflexivity].
  destruct (hex_to_binary (entry_value r)) as [pickled|]; [|reflexivity].
  destruct (loads pickled); reflexivity.
Qed.

Lemma deliver_unpickled_more task_id r s results :
  keeps unpickled_more (deliver loads task_id r s results).
Proof.
  intros w. unfold deliver, bind, lift, ret, raise, set_counter, note_unpickled.
  destruct (decode_ascii (entry_value r)) as [text|] eqn:E;
    [|apply unpickled_more_refl].
  apply decode_ascii_Some in E. subst text.
  destruct (String.eqb (entry_value r) ACTOR_DIED_STR) eqn:Er;
    [apply unpickled_more_refl|].
  apply String.eqb_neq in Er.
  destruct (hex_to_binary task_id); [|apply unpickled_more_refl].
  assert (Forall (fun v => v <> ACTOR_DIED_STR) [entry_value r])
    by (constructor; [exact Er | constructor]).
  destruct (hex_to_binary (entry_value r)) as [pickled|];
    [destruct (loads pickled)|]; cbn; eexists; split; eauto.
Qed.

Lemma process_answer_keeps (R : World -> World -> Prop) m answer results :
  (forall w, R w w) -> (forall a b c, R a b -> R b c -> R a c) ->
  (forall task_id r s acc, keeps R (deliver loads task_id r s acc)) ->
  keeps R (process_answer loads m answer results).
Proof.
  intros Hrefl Htrans Hd. unfold process_answer.
  apply keeps_bind; [assumption | apply keeps_lift; assumption |].
  intros task_id. apply keeps_for_each; try assumption.
  intros r acc. apply keeps_for_each; try assumption. intros; apply Hd.
Qed.

Lemma process_answers_same_redis m answers results :
  keeps same_redis (for_each (process_answer loads m) answers results).
Proof.
  apply keeps_for_each; eauto with frames.
  intros answer acc. apply process_answer_keeps; eauto with frames.
  apply deliver_same_redis.
Qed.

Lemma process_answers_unpickled_more m answers results :
  keeps unpickled_more (for_each (process_answer loads m) answers results).
Proof.
  apply keeps_for_each; eauto with frames.
  intros answer acc. apply process_answer_keeps; eauto with frames.
  apply deliver_unpickled_more.
Qed.

(** [receive] issues exactly one command, the read, and writes nothing to
    the streams. *)
Lemma receive_issues sources timeout w m :
  Qltb (timeout_or_huge timeout) 0 = false ->
  map_sources sources [] = Return m ->
  redis (snd (receive loads sources timeout w))
  = {| streams := streams (redis w);
       issued :=
         (issued (redis w)
          ++ [XREAD (timeout_ms (timeout_or_huge timeout))
                (map fst m) (cursors_for (worker w) (map fst m))])%list |}.
Proof.
  intros Ht Hm. destruct (receive_run loads sources timeout w m Ht Hm) as (w1 & _ & ->).
  apply process_answers_same_redis.
Qed.

(** What [receive] returns, when it returns, is the fan-out of the answer
    to its read. *)
Lemma receive_returns_fan_out sources timeout w m results :
  map_sources sources [] = Return m ->
  fst (receive loads sources timeout w) = Return results ->
  results = fan_out loads m (answers_for w m).
Proof.
  intros Hm Hr.
  destruct (Qltb (timeout_or_huge timeout) 0) eqn:Ht.
  - unfold receive in Hr. rewrite Ht in Hr. discriminate.
  - destruct (receive_run loads sources timeout w m Ht Hm) as (w1 & _ & E).
    rewrite E in Hr. apply process_answers_return in Hr. exact Hr.
Qed.

Lemma receive_unpickled_more sources timeout :
  keeps unpickled_more (receive loads sources timeout).
Proof.
  intros w. destruct (Qltb (timeout_or_huge timeout) 0) eqn:Ht.
  - unfold receive. rewrite Ht. apply unpickled_more_refl.
  - destruct (map_sources sources []) as [m|e] eqn:Hm.
    + destruct (receive_run loads sources timeout w m Ht Hm) as (w1 & _ & ->).
      eapply unpickled_more_trans; [|apply process_answers_unpickled_more].
      exists []. split; [cbn; symmetry; apply app_nil_r | constructor].
    + apply same_cursors_unpickled_more.
      apply (receive_unresolved loads sources timeout w e Ht Hm).
Qed.

End Processing.

(** ** Answers that decode *)

Section Decodable.

Variable loads : string -> option Signal.

Lemma for_sources_decodable task_id r srcs results w signal :
  signal_of loads task_id (entry_value r) = Return signal ->
  fst (for_each (deliver loads task_id r) srcs results w)
  = Return (results ++ copies loads task_id srcs r)%list.
Proof.
  intros H. rewrite for_sources_value. unfold copies. rewrite H.
  destruct srcs; cbn [map]; [rewrite app_nil_r|]; reflexivity.
Qed.

Lemma for_entries_decodable task_id srcs entries :
  Forall
    (fun r => exists signal,
       signal_of loads task_id (entry_value r) = Return signal) entries ->
  forall results w,
    fst (for_each (fun r => for_each (deliver loads task_id r) srcs)
           entries results w)
    = Return (results ++ flat_map (copies loads task_id srcs) entries)%list.
Proof.
  induction 1 as [|r entries [signal Hr] _ IH]; intros results w;
    cbn [for_each flat_map].
  - cbn. rewrite app_nil_r. reflexivity.
  - rewrite (bind_run _ _ _ _ _
               (run_eq _ _ _ (for_sources_decodable _ _ srcs results w _ Hr))).
    rewrite IH, app_assoc. reflexivity.
Qed.

(** The loop over the answers returns, with the fan-out, as soon as every
    entry decodes. *)
Lemma process_answers_decodable m answers :
  Forall (decodable loads) answers ->
  forall results w,
    fst (for_each (process_answer loads m) answers results w)
    = Return (results ++ fan_out loads m answers)%list.
Proof.
  induction 1 as [|answer answers [Hk Hd] _ IH]; intros results w;
    cbn [for_each].
  - cbn. rewrite app_nil_r. reflexivity.
  - assert (fst (process_answer loads m answer results w)
            = Return (results
                      ++ flat_map
                           (copies loads (fst answer) (sources_of (fst answer) m))
                           (snd answer))%list) as Ha.
    { unfold process_answer. rewrite Hk.
      rewrite (bind_run _ _ w w (fst answer)) by reflexivity.
      apply for_entries_decodable, Hd. }
    rewrite (bind_run _ _ _ _ _ (run_eq _ _ _ Ha)).
    rewrite IH. unfold fan_out. cbn [flat_map]. rewrite app_assoc. reflexivity.
Qed.

End Decodable.

(** What [send] writes decodes to the signal sent, under a codec that
    reads back what it wrote. *)
Lemma signal_of_encoded dumps loads k signal :
  loads (dumps signal) = Some signal ->
  signal_of loads (hex k) (binary_to_hex (dumps signal)) = Return signal.
Proof.
  intros H. unfold signal_of. rewrite decode_ascii_hex.
  destruct (String.eqb_spec (binary_to_hex (dumps signal)) ACTOR_DIED_STR) as [E|_].
  - destruct (binary_to_hex_not_reserved _ E).
  - unfold hex. rewrite !hex_to_binary_hex, H. reflexivity.
Qed.

(** ** The server *)

Lemma max_id_cons x l : max_id (x :: l) = N.max (entry_id x) (max_id l).
Proof. reflexivity. Qed.

Lemma newer_none cursor l : max_id l <= cursor -> newer cursor l = [].
Proof.
  induction l as [|x l IH]; [reflexivity|].
  rewrite max_id_cons. intros H. cbn [newer List.filter].
  destruct (N.ltb_spec cursor (entry_id x)); [lia|]. apply IH. lia.
Qed.

(** A consumer that has read a stream to its end reads, after one more
    [XADD], the new entry and nothing else. *)
Lemma xread_after_xadd rd key value :
  xread (streams (snd (execute_command (XADD key value) rd))) [key]
    [max_id (stream_of rd key)]
  = [(key, [{| entry_id := N.succ (max_id (stream_of rd key));
               entry_value := value |}])].
Proof.
  cbn [execute_command snd streams xread].
  rewrite lookup_insert_eq. cbn [default]. unfold id.
  unfold newer. rewrite List.filter_app.
  fold (newer (max_id (stream_of rd key)) (stream_of rd key)).
  rewrite newer_none by lia. cbn.
  destruct (N.ltb_spec (max_id (stream_of rd key))
              (N.succ (max_id (stream_of rd key)))); [reflexivity | lia].
Qed.

Lemma send_run dumps signal w :
  send dumps signal w
  = (Return tt,
     {| worker := worker w;
        redis :=
          snd (execute_command
                 (XADD (source_key (worker w)) (binary_to_hex (dumps signal)))
                 (redis w));
        unpickled := unpickled w |}).
Proof. reflexivity. Qed.

(** ** What a computation may raise *)

Section Raises.

Variable P : Exc -> Prop.

Lemma raises_only_ret {A} (a : A) : raises_only P (ret a).
Proof. intros w e. discriminate. Qed.

Lemma raises_only_lift {A} (e : Exc) (o : option A) : P e -> raises_only P (lift e o).
Proof. intros He w e'. destruct o; cbn; [discriminate | congruence]. Qed.

Lemma raises_only_bind {A B} (m : M A) (k : A -> M B) :
  raises_only P m -> (forall a, raises_only P (k a)) -> raises_only P (bind m k).
Proof.
  intros Hm Hk w e. unfold bind. specialize (Hm w).
  destruct (m w) as [[a|e'] w']; cbn in *; [apply Hk | intros [= <-]; auto].
Qed.

Lemma raises_only_for_each {A B} (body : A -> B -> M B) (l : list A) :
  (forall x acc, raises_only P (body x acc)) ->
  forall acc, raises_only P (for_each body l acc).
Proof.
  intros Hbody. induction l as [|x l IH]; intros acc; cbn [for_each].
  - apply raises_only_ret.
  - apply raises_only_bind; [apply Hbody | exact IH].
Qed.

End Raises.

Lemma process_answers_raise loads m answers results :
  raises_only decoding_error (for_each (process_answer loads m) answers results).
Proof.
  apply raises_only_for_each. intros answer acc. unfold process_answer.
  apply raises_only_bind; [apply raises_only_lift; left; reflexivity|].
  intros task_id. apply raises_only_for_each. intros r acc'.
  apply raises_only_for_each. intros s acc'' w e.
  rewrite deliver_value. unfold signal_of, decoding_error.
  destruct (decode_ascii _); [|intros [= <-]; auto].
  destruct (String.eqb _ _); [discriminate|].
  destruct (hex_to_binary task_id); [|intros [= <-]; auto].
  destruct (hex_to_binary (entry_value r)) as [pickled|]; [|intros [= <-]; auto].
  destruct (loads pickled); [discriminate | intros [= <-]; auto].
Qed.

Lemma forget_world loads sources w :
  snd (forget loads sources w) = snd (receive loads sources (Some 0%Q) w).
Proof.
  unfold forget, bind. destruct (receive loads sources (Some 0%Q) w) as [[a|e] w'];
    reflexivity.
Qed.

Lemma get_task_id_raises s e : _get_task_id s = Raise e -> e = UnsupportedSourceKind.
Proof. destruct s; cbn; congruence. Qed.


Lemma map_sources_stops sources s : forall m,
  In s sources -> supported s = false ->
  map_sources sources m = Raise UnsupportedSourceKind.
Proof.
  induction sources as [|x sources IH]; intros m Hin Hs; [destruct Hin|].
  cbn [map_sources]. destruct (_get_task_id x) as [t|e] eqn:E.
  - destruct Hin as [-> | Hin]; [|apply IH; assumption].
    rewrite (get_task_id_unsupported s Hs) in E. discriminate.
  - rewrite (get_task_id_raises x e E). reflexivity.
Qed.

(** * The claims *)

(** ** C3: what [send] writes *)

(** C3, on a concrete run: a task sends [ActorDiedSignal()]; the value
    appended to its stream is the hexadecimal form of the pickled object,
    not the reserved string. *)
Lemma send_actor_died_is_pickled :
  map entry_value
    (stream_of
       (redis (snd (send Sample.dumps ActorDiedSignal
                      (Sample.world Sample.task Sample.empty_redis))))
       (hex "t1"))
  = ["44"]
  /\ map entry_value
       (stream_of
          (redis (snd (send Sample.dumps ActorDiedSignal
                         (Sample.world Sample.task Sample.empty_redis))))
          (hex "t1"))
     <> [ACTOR_DIED_STR].
Proof. split; [reflexivity | discriminate]. Qed.

(** C3, as amended: [send] has no case for the termination signal.  Every
    signal, [ActorDiedSignal()] included, is pickled and written in
    hexadecimal as one new entry of the sender's stream, and the value
    written is never the reserved string. *)
Theorem send_pickles_every_signal
    (dumps : Signal -> string) (signal : Signal) (w : World) :
  fst (send dumps signal w) = Return tt
  /\ issued (redis (snd (send dumps signal w)))
     = (issued (redis w)
        ++ [XADD (source_key (worker w)) (binary_to_hex (dumps signal))])%list
  /\ stream_of (redis (snd (send dumps signal w))) (source_key (worker w))
     = (stream_of (redis w) (source_key (worker w))
        ++ [{| entry_id :=
                 N.succ (max_id (stream_of (redis w) (source_key (worker w))));
               entry_value := binary_to_hex (dumps signal) |}])%list
  /\ binary_to_hex (dumps signal) <> ACTOR_DIED_STR.
Proof.
  rewrite send_run. cbn [fst snd redis execute_command issued].
  repeat split.
  - unfold stream_of at 1. cbn [streams]. rewrite lookup_insert_eq. reflexivity.
  - apply binary_to_hex_not_reserved.
Qed.

(** ** C4: the stream of an actor handle *)

(** C4, on a concrete handle: the handle of the actor ["actor-1"], created
    by the task ["task-0"], resolves to ["actor-1"]. *)
Lemma actor_handle_not_resolved_to_creator :
  _get_task_id
    (SrcActorHandle {| _actor_id := "actor-1"; creator_task_id := "task-0" |})
  <> Return
       (creator_task_id {| _actor_id := "actor-1"; creator_task_id := "task-0" |}).
Proof. discriminate. Qed.

(** C4, as amended: an actor handle resolves to the handle's own actor
    id, whatever task created the actor, and that id is the key of the
    stream to which a [send] running in the actor writes. *)
Theorem actor_handle_resolves_to_actor_id
    (a t : ID) (running : ID) (counters : option (gmap string N)) :
  _get_task_id (SrcActorHandle {| _actor_id := a; creator_task_id := t |})
  = Return a
  /\ source_key
       {| actor_id := Some a; current_task_id := running;
          signal_counters := counters |}
     = hex a.
Proof. split; reflexivity. Qed.

(** ** C5: a source of no supported kind *)

(** C5: a source that is neither an actor handle, a task id nor an object
    id does not resolve, and a [receive] over a list that holds one raises
    the same error without returning anything, without a command sent to
    the server, and with every cursor as it was.  [send] takes no source:
    it resolves nothing and always reaches the server. *)
Theorem unsupported_source_aborts
    (loads : string -> option Signal) (sources : list Source)
    (timeout : option Q) (w : World) (s : Source) :
  (0 <= timeout_or_huge timeout)%Q ->
  In s sources ->
  supported s = false ->
  _get_task_id s = Raise UnsupportedSourceKind
  /\ fst (receive loads sources timeout w) = Raise UnsupportedSourceKind
  /\ redis (snd (receive loads sources timeout w)) = redis w
  /\ unpickled (snd (receive loads sources timeout w)) = unpickled w
  /\ (forall i, cursor (worker (snd (receive loads sources timeout w))) i
                = cursor (worker w) i)
  /\ (forall dumps signal w', fst (send dumps signal w') = Return tt).
Proof.
  intros Ht Hin Hs. apply Qltb_ge in Ht.
  pose proof (map_sources_stops sources s [] Hin Hs) as Hm.
  destruct (receive_unresolved loads sources timeout w _ Ht Hm)
    as (Hr & Hredis & Hunp & Hcur).
  split; [apply get_task_id_unsupported, Hs|].
  repeat split; assumption.
Qed.

Lemma unsupported_source_aborts_witness :
  fst (receive Sample.loads [SrcTaskID "t1"; SrcOther "42"] (Some 1%Q)
         (Sample.world Sample.consumer Sample.empty_redis))
  = Raise UnsupportedSourceKind.
Proof.
  refine (proj1 (proj2
    (unsupported_source_aborts Sample.loads [SrcTaskID "t1"; SrcOther "42"]
       (Some 1%Q) (Sample.world Sample.consumer Sample.empty_redis)
       (SrcOther "42") _ _ _))).
  - vm_compute. discriminate.
  - simpl. right. left. reflexivity.
  - reflexivity.
Defined.

(** ** C6: a negative timeout *)

(** C6: with a negative timeout [receive] raises the [ValueError] of its
    first check and leaves the whole world as it was: the worker (no
    counter read or created), the server (no command) and the codec. *)
Theorem negative_timeout_rejected
    (loads : string -> option Signal) (sources : list Source) (t : Q) (w : World) :
  (t < 0)%Q ->
  receive loads sources (Some t) w
  = (Raise (ValueError "The 'timeout' argument cannot be less than 0."), w).
Proof.
  intros Ht. apply Qltb_lt in Ht. unfold receive. cbn [timeout_or_huge].
  rewrite Ht. reflexivity.
Qed.

Lemma negative_timeout_rejected_witness :
  receive Sample.loads [SrcOther "42"; SrcTaskID "t1"] (Some (-1)%Q)
    (Sample.world Sample.consumer (Sample.died "t1" Sample.empty_redis))
  = (Raise (ValueError "The 'timeout' argument cannot be less than 0."),
     Sample.world Sample.consumer (Sample.died "t1" Sample.empty_redis)).
Proof.
  apply (negative_timeout_rejected Sample.loads [SrcOther "42"; SrcTaskID "t1"]
           (-1)%Q).
  reflexivity.
Defined.

(** ** C7: a timeout below one millisecond, and no timeout *)

(** C7: with a positive timeout below one millisecond [receive] does not
    raise the error of the timeout check, and the one command it sends is
    a read that blocks for exactly one millisecond; with no timeout, the
    timeout is [10^12] seconds and the read blocks for [10^15]
    milliseconds. *)
Theorem small_timeout_is_clamped
    (loads : string -> option Signal) (sources : list Source) (t : Q)
    (w : World) (m : list (string * list Source)) :
  (0 < t)%Q ->
  (t < 1 # 1000)%Q ->
  map_sources sources [] = Return m ->
  (forall msg, fst (receive loads sources (Some t) w) <> Raise (ValueError msg))
  /\ issued (redis (snd (receive loads sources (Some t) w)))
     = (issued (redis w)
        ++ [XREAD 1 (map fst m) (cursors_for (worker w) (map fst m))])%list
  /\ timeout_or_huge None = inject_Z (10 ^ 12)
  /\ issued (redis (snd (receive loads sources None w)))
     = (issued (redis w)
        ++ [XREAD (10 ^ 15) (map fst m) (cursors_for (worker w) (map fst m))])%list.
Proof.
  intros Hpos Hsmall Hm.
  assert (Qltb (timeout_or_huge (Some t)) 0 = false) as Ht
    by (apply Qltb_ge, Qlt_le_weak, Hpos).
  split; [|split; [|split]].
  - intros msg Hr.
    destruct (receive_run loads sources (Some t) w m Ht Hm) as (w1 & _ & E).
    rewrite E in Hr. apply process_answers_raise in Hr.
    destruct Hr as [Hr | [Hr | Hr]]; discriminate.
  - rewrite (receive_issues loads sources (Some t) w m Ht Hm).
    cbn [issued timeout_or_huge]. rewrite (timeout_ms_clamped t Hsmall).
    reflexivity.
  - reflexivity.
  - rewrite (receive_issues loads sources None w m eq_refl Hm).
    cbn [issued]. rewrite timeout_ms_huge. reflexivity.
Qed.

Lemma small_timeout_is_clamped_witness :
  issued (redis (snd (receive Sample.loads [SrcTaskID "t1"] (Some (1 # 2000))
                        (Sample.world Sample.consumer Sample.empty_redis))))
  = [XREAD 1 [hex "t1"] [0]].
Proof.
  refine (proj1 (proj2
    (small_timeout_is_clamped Sample.loads [SrcTaskID "t1"] (1 # 2000)
       (Sample.world Sample.consumer Sample.empty_redis)
       [(hex "t1", [SrcTaskID "t1"])] _ _ _))).
  - reflexivity.
  - reflexivity.
  - reflexivity.
Defined.

(** ** C10: a timeout of zero *)

(** C10: with a timeout of zero, and so in the call that [forget] makes,
    the read blocks for one millisecond; whatever the timeout, the block
    time of the read [receive] sends is at least one millisecond, never
    zero. *)
Theorem zero_timeout_is_clamped
    (loads : string -> option Signal) (sources : list Source) (t : Q)
    (w : World) (m : list (string * list Source)) :
  (t == 0)%Q ->
  map_sources sources [] = Return m ->
  issued (redis (snd (receive loads sources (Some t) w)))
  = (issued (redis w)
     ++ [XREAD 1 (map fst m) (cursors_for (worker w) (map fst m))])%list
  /\ issued (redis (snd (forget loads sources w)))
     = (issued (redis w)
        ++ [XREAD 1 (map fst m) (cursors_for (worker w) (map fst m))])%list
  /\ (forall timeout,
        (0 <= timeout_or_huge timeout)%Q ->
        exists ms,
          (1 <= ms)%Z
          /\ issued (redis (snd (receive loads sources timeout w)))
             = (issued (redis w)
                ++ [XREAD ms (map fst m) (cursors_for (worker w) (map fst m))])%list).
Proof.
  intros Hz Hm.
  assert (forall q, (q == 0)%Q ->
            issued (redis (snd (receive loads sources (Some q) w)))
            = (issued (redis w)
               ++ [XREAD 1 (map fst m) (cursors_for (worker w) (map fst m))])%list)
    as Hzero.
  { intros q Hq.
    assert (Qltb (timeout_or_huge (Some q)) 0 = false) as Ht
      by (apply Qltb_ge; cbn; rewrite Hq; apply Qle_refl).
    rewrite (receive_issues loads sources (Some q) w m Ht Hm).
    cbn [issued timeout_or_huge].
    rewrite (timeout_ms_clamped q) by (rewrite Hq; reflexivity).
    reflexivity. }
  split; [apply Hzero, Hz|]. split.
  - rewrite forget_world. apply Hzero. reflexivity.
  - intros timeout Ht. apply Qltb_ge in Ht.
    exists (timeout_ms (timeout_or_huge timeout)).
    split; [apply timeout_ms_positive|].
    rewrite (receive_issues loads sources timeout w m Ht Hm). reflexivity.
Qed.

Lemma zero_timeout_is_clamped_witness :
  issued (redis (snd (forget Sample.loads [SrcTaskID "t1"]
                        (Sample.world Sample.consumer Sample.empty_redis))))
  = [XREAD 1 [hex "t1"] [0]].
Proof.
  refine (proj1 (proj2
    (zero_timeout_is_clamped Sample.loads [SrcTaskID "t1"] 0%Q
       (Sample.world Sample.consumer Sample.empty_redis)
       [(hex "t1", [SrcTaskID "t1"])] _ _))).
  - reflexivity.
  - reflexivity.
Defined.

(** ** C8: several sources of one stream *)

Lemma map_sources_same_stream s1 s2 k :
  _get_task_id s1 = Return k ->
  _get_task_id s2 = Return k ->
  map_sources [s1; s2] [] = Return [(hex k, [s1; s2])].
Proof.
  intros H1 H2. cbn [map_sources]. rewrite H1. cbn [append_source].
  rewrite H2. cbn [append_source]. rewrite String.eqb_refl. reflexivity.
Qed.

(** C8: two sources [s1], [s2] resolve to the stream of [k], which the
    consumer has read to its end; the producer of that stream sends one
    signal; the consumer's [receive([s1, s2])] then returns exactly
    [(s1, signal)] and [(s2, signal)].  In general, what [receive] returns
    is the fan-out of the answer to its read: stream after stream and
    entry after entry in the order of the stream, one pair for each source
    that resolves to the stream, in the order of the sources. *)
Theorem fan_out_to_every_source
    (dumps : Signal -> string) (loads : string -> option Signal)
    (s1 s2 : Source) (k : ID) (signal : Signal)
    (producer consumer : Worker) (rd : Redis) (timeout : option Q) :
  _get_task_id s1 = Return k ->
  _get_task_id s2 = Return k ->
  source_key producer = hex k ->
  cursor consumer k = max_id (stream_of rd (hex k)) ->
  loads (dumps signal) = Some signal ->
  (0 <= timeout_or_huge timeout)%Q ->
  fst (receive loads [s1; s2] timeout
         {| worker := consumer;
            redis :=
              redis (snd (send dumps signal
                            {| worker := producer; redis := rd; unpickled := [] |}));
            unpickled := [] |})
  = Return [(s1, signal); (s2, signal)]
  /\ (forall sources w m results,
        map_sources sources [] = Return m ->
        fst (receive loads sources timeout w) = Return results ->
        results = fan_out loads m (answers_for w m)).
Proof.
  intros H1 H2 Hkey Hcur Hcodec Ht. apply Qltb_ge in Ht.
  split; [|intros sources w m results; apply receive_returns_fan_out].
  pose proof (map_sources_same_stream s1 s2 k H1 H2) as Hm.
  match goal with |- fst (receive _ _ _ ?w0) = _ => set (w := w0) end.
  destruct (receive_run loads [s1; s2] timeout w _ Ht Hm) as (w1 & _ & ->).
  assert (answers_for w [(hex k, [s1; s2])]
          = [(hex k, [{| entry_id := N.succ (max_id (stream_of rd (hex k)));
                         entry_value := binary_to_hex (dumps signal) |}])]) as ->.
  { unfold answers_for. cbn [map fst].
    change [hex k] with (map hex [k]) at 2. rewrite cursors_for_hex.
    cbn [map]. subst w. cbn [worker redis]. rewrite Hcur, send_run.
    cbn [snd redis worker]. rewrite Hkey. apply xread_after_xadd. }
  pose proof (signal_of_encoded dumps loads k signal Hcodec) as Hs.
  rewrite process_answers_decodable.
  - unfold fan_out, copies. cbn [flat_map fst snd sources_of entry_value].
    rewrite String.eqb_refl, Hs. reflexivity.
  - constructor; [|constructor]. split; cbn [fst snd].
    + apply decode_ascii_hex.
    + constructor; [|constructor]. exists signal. exact Hs.
Qed.

Lemma fan_out_to_every_source_witness :
  fst (receive Sample.loads
         [SrcObjectID {| object_task := "t1"; object_index := 1 |};
          SrcObjectID {| object_task := "t1"; object_index := 2 |}]
         None
         {| worker := Sample.consumer;
            redis :=
              redis (snd (send Sample.dumps (UserSignal "progress")
                            {| worker := Sample.task;
                               redis := Sample.empty_redis;
                               unpickled := [] |}));
            unpickled := [] |})
  = Return
      [(SrcObjectID {| object_task := "t1"; object_index := 1 |},
        UserSignal "progress");
       (SrcObjectID {| object_task := "t1"; object_index := 2 |},
        UserSignal "progress")].
Proof.
  refine (proj1
    (fan_out_to_every_source Sample.dumps Sample.loads
       (SrcObjectID {| object_task := "t1"; object_index := 1 |})
       (SrcObjectID {| object_task := "t1"; object_index := 2 |})
       "t1" (UserSignal "progress") Sample.task Sample.consumer
       Sample.empty_redis None _ _ _ _ _ _)).
  - reflexivity.
  - reflexivity.
  - reflexivity.
  - reflexivity.
  - reflexivity.
  - vm_compute. discriminate.
Defined.

(** ** C9: the reserved value *)

(** C9: for an entry whose value is the reserved string the loop body
    appends [ActorDiedSignal] for the source and touches nothing else,
    whatever the codec; the values a [receive] hands to the codec are all
    different from the reserved string; and when [receive] returns, every
    entry of the answer that carries the reserved string is returned as
    [ActorDiedSignal] to every source of its stream. *)
Theorem reserved_value_is_recognised_first
    (loads : string -> option Signal) (sources : list Source)
    (timeout : option Q) (w : World) (m : list (string * list Source))
    (results : list (Source * Signal)) :
  map_sources sources [] = Return m ->
  fst (receive loads sources timeout w) = Return results ->
  (forall task_id id s acc w',
      deliver loads task_id {| entry_id := id; entry_value := ACTOR_DIED_STR |}
        s acc w'
      = (Return (acc ++ [(s, ActorDiedSignal)])%list, w'))
  /\ unpickled_more w (snd (receive loads sources timeout w))
  /\ (forall key entries r s,
        In (key, entries) (answers_for w m) ->
        In r entries ->
        entry_value r = ACTOR_DIED_STR ->
        In s (sources_of key m) ->
        In (s, ActorDiedSignal) results).
Proof.
  intros Hm Hr. split; [reflexivity|]. split; [apply receive_unpickled_more|].
  intros key entries r s Hanswer Hentry Hvalue Hsource.
  rewrite (receive_returns_fan_out loads sources timeout w m results Hm Hr).
  unfold fan_out. apply in_flat_map. exists (key, entries). split; [exact Hanswer|].
  apply in_flat_map. exists r. split; [exact Hentry|].
  unfold copies. cbn [fst]. rewrite Hvalue, signal_of_reserved.
  apply in_map_iff. exists s. split; [reflexivity | exact Hsource].
Qed.

Lemma reserved_value_is_recognised_first_witness :
  fst (receive Sample.loads [Sample.handle] None
         (Sample.world Sample.consumer Sample.after_death))
  = Return [(Sample.handle, UserSignal "hi"); (Sample.handle, ActorDiedSignal)]
  /\ In (Sample.handle, ActorDiedSignal)
       [(Sample.handle, UserSignal "hi"); (Sample.handle, ActorDiedSignal)].
Proof.
  assert (fst (receive Sample.loads [Sample.handle] None
                 (Sample.world Sample.consumer Sample.after_death))
          = Return [(Sample.handle, UserSignal "hi");
                    (Sample.handle, ActorDiedSignal)]) as Hr
    by (vm_compute; reflexivity).
  split; [exact Hr|].
  refine (proj2 (proj2
    (reserved_value_is_recognised_first Sample.loads [Sample.handle] None
       (Sample.world Sample.consumer Sample.after_death)
       [(hex "a1", [Sample.handle])]
       [(Sample.handle, UserSignal "hi"); (Sample.handle, ActorDiedSignal)]
       _ Hr))
    (hex "a1")
    [{| entry_id := 1; entry_value := "556869" |};
     {| entry_id := 2; entry_value := ACTOR_DIED_STR |}]
    {| entry_id := 2; entry_value := ACTOR_DIED_STR |}
    Sample.handle _ _ _ _).
  - reflexivity.
  - vm_compute. left. reflexivity.
  - simpl. right. left. reflexivity.
  - reflexivity.
  - vm_compute. left. reflexivity.
Defined.

(** ** C1 and C2: the cursor after a reserved entry *)

(** C1, on a concrete run.  The stream of the actor ["a1"] holds a signal
    (entry 1) and the reserved string (entry 2).  A first [receive] on a
    handle to the actor delivers both; the cursor it leaves is 1, the id
    of the signal, not 2, the id of the last entry delivered; a second
    [receive], with nothing published in between, delivers entry 2
    again. *)
Theorem reserved_entry_leaves_cursor_behind :
  stream_of Sample.after_death (hex "a1")
  = [{| entry_id := 1; entry_value := "556869" |};
     {| entry_id := 2; entry_value := ACTOR_DIED_STR |}]
  /\ fst (receive Sample.loads [Sample.handle] None
            (Sample.world Sample.consumer Sample.after_death))
     = Return [(Sample.handle, UserSignal "hi"); (Sample.handle, ActorDiedSignal)]
  /\ cursor
       (worker
          (snd (receive Sample.loads [Sample.handle] None
                  (Sample.world Sample.consumer Sample.after_death))))
       "a1"
     = 1
  /\ streams
       (redis
          (snd (receive Sample.loads [Sample.handle] None
                  (Sample.world Sample.consumer Sample.after_death))))
     = streams Sample.after_death
  /\ fst (receive Sample.loads [Sample.handle] None
            (snd (receive Sample.loads [Sample.handle] None
                    (Sample.world Sample.consumer Sample.after_death))))
     = Return [(Sample.handle, ActorDiedSignal)].
Proof.
  split; [vm_compute; reflexivity|]. split; [vm_compute; reflexivity|].
  split; [vm_compute; reflexivity|]. split; [|vm_compute; reflexivity].
  rewrite (receive_issues Sample.loads [Sample.handle] None _
             [(hex "a1", [Sample.handle])] eq_refl eq_refl).
  reflexivity.
Qed.

(** C2, on a concrete run.  On the same stream, [forget] returns without
    an error, and the [receive] with timeout 0 that follows it, with
    nothing published in between, returns the termination signal instead
    of the empty list. *)
Theorem forget_leaves_reserved_entry :
  fst (forget Sample.loads [Sample.handle]
         (Sample.world Sample.consumer Sample.after_death))
  = Return tt
  /\ streams
       (redis
          (snd (forget Sample.loads [Sample.handle]
                  (Sample.world Sample.consumer Sample.after_death))))
     = streams Sample.after_death
  /\ fst (receive Sample.loads [Sample.handle] (Some 0%Q)
            (snd (forget Sample.loads [Sample.handle]
                    (Sample.world Sample.consumer Sample.after_death))))
     = Return [(Sample.handle, ActorDiedSignal)].
Proof.
  split; [vm_compute; reflexivity|]. split; [|vm_compute; reflexivity].
  rewrite forget_world.
  rewrite (receive_issues Sample.loads [Sample.handle] (Some 0%Q) _
             [(hex "a1", [Sample.handle])] eq_refl eq_refl).
  reflexivity.
Qed.

(** * Further properties of the module *)

(** ** What [receive] returns depends on the streams and the cursors only *)

Lemma world_blind_bind {A B} (m : M A) (k : A -> M B) :
  world_blind m -> (forall a, world_blind (k a)) -> world_blind (bind m k).
Proof.
  intros Hm Hk w w'. unfold bind. specialize (Hm w w').
  destruct (m w) as [[a|e] w1], (m w') as [[a'|e'] w1']; cbn in Hm;
    try discriminate; injection Hm as <-; [apply Hk | reflexivity].
Qed.

Lemma world_blind_for_each {A B} (body : A -> B -> M B) (l : list A) :
  (forall x acc, world_blind (body x acc)) ->
  forall acc, world_blind (for_each body l acc).
Proof.
  intros Hbody. induction l as [|x l IH]; intros acc; cbn [for_each].
  - intros w w'. reflexivity.
  - apply world_blind_bind; [apply Hbody | exact IH].
Qed.

Lemma process_answers_world_blind loads m answers results :
  world_blind (for_each (process_answer loads m) answers results).
Proof.
  apply world_blind_for_each. intros answer acc. unfold process_answer.
  apply world_blind_bind.
  - intros w w'. destruct (decode_ascii (fst answer)); reflexivity.
  - intros task_id. apply world_blind_for_each. intros r acc'.
    apply world_blind_for_each. intros s acc'' w w'.
    rewrite !deliver_value. reflexivity.
Qed.

Lemma receive_value loads sources timeout w m w0 :
  Qltb (timeout_or_huge timeout) 0 = false ->
  map_sources sources [] = Return m ->
  fst (receive loads sources timeout w)
  = fst (for_each (process_answer loads m) (answers_for w m) [] w0).
Proof.
  intros Ht Hm.
  destruct (receive_run loads sources timeout w m Ht Hm) as (w1 & _ & ->).
  apply process_answers_world_blind.
Qed.

Lemma answers_for_same w w' m :
  streams (redis w') = streams (redis w) ->
  (forall i, cursor (worker w') i = cursor (worker w) i) ->
  answers_for w' m = answers_for w m.
Proof.
  intros Hs Hc. unfold answers_for, cursors_for. rewrite Hs. f_equal.
  apply map_ext. intros key. apply Hc.
Qed.

Lemma receive_same_value loads sources timeout w w' :
  streams (redis w') = streams (redis w) ->
  (forall i, cursor (worker w') i = cursor (worker w) i) ->
  fst (receive loads sources timeout w') = fst (receive loads sources timeout w).
Proof.
  intros Hs Hc. destruct (Qltb (timeout_or_huge timeout) 0) eqn:Ht.
  - unfold receive. rewrite Ht. reflexivity.
  - destruct (map_sources sources []) as [m|e] eqn:Hm.
    + rewrite (receive_value loads sources timeout w' m w Ht Hm).
      rewrite (receive_value loads sources timeout w m w Ht Hm).
      rewrite (answers_for_same w w' m Hs Hc). reflexivity.
    + rewrite (proj1 (receive_unresolved loads sources timeout w' e Ht Hm)).
      rewrite (proj1 (receive_unresolved loads sources timeout w e Ht Hm)).
      reflexivity.
Qed.

(** [receive] never writes to a stream, and the one command it may send
    is a read. *)
Lemma receive_streams loads sources timeout w :
  streams (redis (snd (receive loads sources timeout w))) = streams (redis w).
Proof.
  destruct (Qltb (timeout_or_huge timeout) 0) eqn:Ht.
  - unfold receive. rewrite Ht. reflexivity.
  - destruct (map_sources sources []) as [m|e] eqn:Hm.
    + rewrite (receive_issues loads sources timeout w m Ht Hm). reflexivity.
    + destruct (receive_unresolved loads sources timeout w e Ht Hm)
        as (_ & -> & _). reflexivity.
Qed.

(** ** Invariants of the loops *)

Lemma preserves_bind (P : World -> Prop) {A B} (m : M A) (k : A -> M B) :
  preserves P m -> (forall a, preserves P (k a)) -> preserves P (bind m k).
Proof.
  intros Hm Hk w Hw. unfold bind. specialize (Hm w Hw).
  destruct (m w) as [[a|e] w']; cbn in *; [apply Hk, Hm | exact Hm].
Qed.

Lemma preserves_for_each (P : World -> Prop) {A B} (body : A -> B -> M B)
    (l : list A) :
  (forall x, In x l -> forall acc, preserves P (body x acc)) ->
  forall acc, preserves P (for_each body l acc).
Proof.
  induction l as [|x l IH]; intros Hbody acc; cbn [for_each].
  - intros w Hw. exact Hw.
  - apply preserves_bind; [apply Hbody; left; reflexivity|].
    intros acc'. apply IH. intros y Hy. apply Hbody. right. exact Hy.
Qed.

Lemma cursor_with_counters w key id i :
  cursor (worker (with_counters (<[key := id]> (counters_of w)) w)) i
  = if String.eqb i key then id else cursor (worker w) i.
Proof.
  unfold cursor, counters_of. cbn.
  destruct (String.eqb_spec i key) as [->|Hne].
  - rewrite lookup_insert_eq. reflexivity.
  - rewrite lookup_insert_ne by congruence. reflexivity.
Qed.

(** What the loop body does to the world, case by case. *)
Lemma deliver_world loads task_id r s results w :
  snd (deliver loads task_id r s results w)
  = match decode_ascii (entry_value r) with
    | None => w
    | Some _ =>
        if reserved r then w
        else
          match hex_to_binary task_id with
          | None => w
          | Some key =>
              {| worker := worker (with_counters (<[key := entry_id r]> (counters_of w)) w);
                 redis := redis w;
                 unpickled := (unpickled w ++ [entry_value r])%list |}
          end
    end.
Proof.
  unfold deliver, reserved, bind, lift, ret, raise, set_counter, note_unpickled.
  destruct (decode_ascii (entry_value r)) as [text|] eqn:E; [|reflexivity].
  apply decode_ascii_Some in E. subst text.
  destruct (String.eqb (entry_value r) ACTOR_DIED_STR); [reflexivity|].
  destruct (hex_to_binary task_id); [|reflexivity].
  destruct (hex_to_binary (entry_value r)) as [pickled|]; [|reflexivity].
  destruct (loads pickled); reflexivity.
Qed.

(** The loop body never stores an id below [lo] when the entry's id is
    not below it. *)
Lemma deliver_above loads (lo : string -> N) task_id r s results :
  (forall i, hex_to_binary task_id = Some i -> lo i <= entry_id r) ->
  preserves (fun w => forall i, lo i <= cursor (worker w) i)
    (deliver loads task_id r s results).
Proof.
  intros Hr w Hw. rewrite deliver_world.
  destruct (decode_ascii (entry_value r)); [|exact Hw].
  destruct (reserved r); [exact Hw|].
  destruct (hex_to_binary task_id) as [key|]; [|exact Hw].
  intros i. cbn [worker]. rewrite cursor_with_counters.
  destruct (String.eqb_spec i key) as [->|_]; [apply Hr; reflexivity | apply Hw].
Qed.

Lemma process_answers_above loads (lo : string -> N) m answers :
  (forall key es i r,
      In (key, es) answers -> hex_to_binary key = Some i -> In r es ->
      lo i <= entry_id r) ->
  forall results,
    preserves (fun w => forall i, lo i <= cursor (worker w) i)
      (for_each (process_answer loads m) answers results).
Proof.
  intros H. apply preserves_for_each. intros [key es] Hin acc w Hw.
  unfold process_answer, bind, lift, ret, raise. cbn [fst snd].
  destruct (decode_ascii key) as [text|] eqn:E; [|exact Hw].
  apply decode_ascii_Some in E. subst text.
  refine (preserves_for_each
            (fun w => forall i, lo i <= cursor (worker w) i) _ es _ acc w Hw).
  intros r Hr acc'.
  apply preserves_for_each. intros s _ acc''.
  apply deliver_above. intros i Hi. eapply H; eassumption.
Qed.

Lemma xread_answers st (c : string -> N) ids key es :
  In (key, es) (xread st (map hex ids) (map c ids)) ->
  exists i, In i ids /\ key = hex i /\ es = newer (c i) (default [] (st !! hex i)).
Proof.
  induction ids as [|i ids IH]; cbn [map xread]; [intros []|].
  destruct (newer (c i) (default [] (st !! hex i))) as [|e es'] eqn:E.
  - intros H. destruct (IH H) as (j & Hj & Hk & Hes).
    exists j. split; [right; exact Hj | split; assumption].
  - intros [[= <- <-] | H].
    + exists i. split; [left; reflexivity | split; [reflexivity | congruence]].
    + destruct (IH H) as (j & Hj & Hk & Hes).
      exists j. split; [right; exact Hj | split; assumption].
Qed.

Lemma newer_In cursor l r : In r (newer cursor l) -> cursor < entry_id r.
Proof.
  unfold newer. intros H. apply filter_In in H as [_ H].
  apply N.ltb_lt, H.
Qed.

(** The answer to the read of [receive]: every answered key is the key of
    a requested stream, with the entries above the worker's cursor. *)
Lemma answers_for_entries w sources m key es :
  map_sources sources [] = Return m ->
  In (key, es) (answers_for w m) ->
  exists i,
    key = hex i /\ In (hex i) (map fst m)
    /\ es = newer (cursor (worker w) i) (stream_of (redis w) (hex i)).
Proof.
  intros Hm Hin.
  destruct (map_sources_keys sources [] m [] Hm eq_refl) as [ids Hk].
  unfold answers_for in Hin. rewrite Hk, cursors_for_hex in Hin.
  apply xread_answers in Hin as (i & Hi & -> & ->).
  exists i. split; [reflexivity|]. split; [|reflexivity].
  rewrite Hk. apply in_map, Hi.
Qed.

(** ** The cursors after [receive] *)

Lemma cursor_after_app l1 l2 c :
  cursor_after (l1 ++ l2) c = cursor_after l2 (cursor_after l1 c).
Proof. apply fold_left_app. Qed.

Lemma cursor_after_twice r c :
  cursor_after [r] (cursor_after [r] c) = cursor_after [r] c.
Proof. cbn. destruct (reserved r); reflexivity. Qed.

Lemma deliver_cursor loads k r s results w i :
  is_Some (decode_ascii (entry_value r)) ->
  cursor (worker (snd (deliver loads (hex k) r s results w))) i
  = if String.eqb i k then cursor_after [r] (cursor (worker w) i)
    else cursor (worker w) i.
Proof.
  intros [text E]. rewrite deliver_world, E. unfold hex.
  rewrite hex_to_binary_hex. cbn [cursor_after fold_left].
  destruct (reserved r); [destruct (String.eqb i k); reflexivity|].
  cbn [worker]. apply cursor_with_counters.
Qed.

Lemma deliver_returns_ascii loads task_id r s results w results' :
  fst (deliver loads task_id r s results w) = Return results' ->
  is_Some (decode_ascii (entry_value r)).
Proof.
  rewrite deliver_value. unfold signal_of.
  destruct (decode_ascii (entry_value r)); [eauto | discriminate].
Qed.

Lemma for_sources_cursor loads k r srcs : forall results w results' i,
  fst (for_each (deliver loads (hex k) r) srcs results w) = Return results' ->
  cursor (worker (snd (for_each (deliver loads (hex k) r) srcs results w))) i
  = match srcs with
    | [] => cursor (worker w) i
    | _ :: _ =>
        if String.eqb i k then cursor_after [r] (cursor (worker w) i)
        else cursor (worker w) i
    end.
Proof.
  induction srcs as [|s srcs IH]; intros results w results' i; [reflexivity|].
  cbn [for_each]. unfold bind.
  pose proof (deliver_cursor loads k r s results w i) as Hd.
  destruct (deliver loads (hex k) r s results w) as [[acc|e] w1] eqn:E;
    [|discriminate].
  intros Hr. cbn [snd] in Hd.
  rewrite (IH acc w1 results' i Hr), Hd
    by (eapply deliver_returns_ascii; rewrite E; reflexivity).
  destruct srcs; [reflexivity|].
  destruct (String.eqb i k); [apply cursor_after_twice | reflexivity].
Qed.

Lemma for_entries_cursor loads k srcs es : forall results w results' i,
  srcs <> [] ->
  fst (for_each (fun r => for_each (deliver loads (hex k) r) srcs)
         es results w) = Return results' ->
  cursor
    (worker
       (snd (for_each (fun r => for_each (deliver loads (hex k) r) srcs)
               es results w))) i
  = if String.eqb i k then cursor_after es (cursor (worker w) i)
    else cursor (worker w) i.
Proof.
  induction es as [|r es IH]; intros results w results' i Hs.
  - intros _. cbn. destruct (String.eqb i k); reflexivity.
  - cbn [for_each]. unfold bind.
    pose proof (for_sources_cursor loads k r srcs results w) as Hd.
    destruct (for_each (deliver loads (hex k) r) srcs results w)
      as [[acc|e] w1] eqn:E; [|discriminate].
    intros Hr. rewrite (IH acc w1 results' i Hs Hr).
    specialize (Hd acc i eq_refl). cbn [snd] in Hd. rewrite Hd.
    destruct srcs as [|s srcs]; [congruence|].
    destruct (String.eqb i k); reflexivity.
Qed.

Lemma answered_cons key answer answers :
  answered key (answer :: answers)
  = ((if String.eqb (fst answer) key then snd answer else [])
     ++ answered key answers)%list.
Proof. reflexivity. Qed.

Lemma hex_eqb i k : String.eqb (hex k) (hex i) = String.eqb i k.
Proof.
  destruct (String.eqb_spec i k) as [->|Hne]; [apply String.eqb_refl|].
  apply String.eqb_neq. intros H. apply Hne.
  apply (f_equal hex_to_binary) in H. unfold hex in H.
  rewrite !hex_to_binary_hex in H. congruence.
Qed.

Lemma process_answers_cursor loads m answers : forall results w results' i,
  Forall (fun answer => exists k,
            fst answer = hex k /\ sources_of (fst answer) m <> []) answers ->
  fst (for_each (process_answer loads m) answers results w) = Return results' ->
  cursor (worker (snd (for_each (process_answer loads m) answers results w))) i
  = cursor_after (answered (hex i) answers) (cursor (worker w) i).
Proof.
  induction answers as [|[key es] answers IH]; intros results w results' i Hk;
    [reflexivity|].
  apply Forall_cons in Hk as [(k & Hkey & Hsrc) Hk]. cbn [fst] in Hkey, Hsrc.
  subst key. cbn [for_each]. unfold bind.
  assert (process_answer loads m (hex k, es) results w
          = for_each (fun r => for_each (deliver loads (hex k) r)
                                 (sources_of (hex k) m)) es results w) as Ep.
  { unfold process_answer. cbn [fst snd]. unfold hex. rewrite decode_ascii_hex.
    reflexivity. }
  pose proof (for_entries_cursor loads k (sources_of (hex k) m) es results w) as Hd.
  rewrite <- Ep in Hd.
  destruct (process_answer loads m (hex k, es) results w) as [[acc|e] w1];
    [|discriminate].
  intros Hr. rewrite (IH acc w1 results' i Hk Hr).
  specialize (Hd acc i Hsrc eq_refl). cbn [snd] in Hd. rewrite Hd.
  rewrite answered_cons, cursor_after_app. cbn [fst snd]. rewrite hex_eqb.
  destruct (String.eqb i k); reflexivity.
Qed.

Lemma append_source_nonempty key s m :
  Forall (fun kl => snd kl <> []) m ->
  Forall (fun kl : string * list Source => snd kl <> []) (append_source key s m).
Proof.
  induction 1 as [|[k l] m Hl Hm IH]; cbn [append_source].
  - constructor; [discriminate | constructor].
  - destruct (String.eqb key k); constructor; try assumption.
    cbn. destruct l; discriminate.
Qed.

Lemma map_sources_nonempty sources : forall m m',
  Forall (fun kl => snd kl <> []) m ->
  map_sources sources m = Return m' ->
  Forall (fun kl : string * list Source => snd kl <> []) m'.
Proof.
  induction sources as [|s sources IH]; intros m m' Hm; cbn [map_sources].
  - intros [= <-]. exact Hm.
  - destruct (_get_task_id s); [|discriminate].
    apply IH, append_source_nonempty, Hm.
Qed.

Lemma sources_of_nonempty key m :
  Forall (fun kl : string * list Source => snd kl <> []) m ->
  In key (map fst m) -> sources_of key m <> [].
Proof.
  induction 1 as [|[k l] m Hl _ IH]; cbn [map fst sources_of In]; [tauto|].
  destruct (String.eqb_spec key k) as [->|Hne]; [intros _; exact Hl|].
  intros [E | Hin]; [congruence | apply IH, Hin].
Qed.

Lemma answers_for_sourced w sources m :
  map_sources sources [] = Return m ->
  Forall (fun answer => exists k,
            fst answer = hex k /\ sources_of (fst answer) m <> [])
    (answers_for w m).
Proof.
  intros Hm. apply List.Forall_forall. intros [key es] Hin.
  destruct (answers_for_entries w sources m key es Hm Hin) as (i & -> & Hi & _).
  exists i. split; [reflexivity|]. cbn [fst].
  apply sources_of_nonempty; [|exact Hi].
  apply (map_sources_nonempty sources [] m); [constructor | exact Hm].
Qed.

(** ** Streams with growing ids *)

Lemma cursor_after_cons r es c :
  cursor_after (r :: es) c = cursor_after es (if reserved r then c else entry_id r).
Proof. reflexivity. Qed.

Lemma cursor_after_origin es : forall c,
  cursor_after es c = c \/ exists r, In r es /\ cursor_after es c = entry_id r.
Proof.
  induction es as [|x es IH]; intros c; [left; reflexivity|].
  rewrite cursor_after_cons.
  destruct (IH (if reserved x then c else entry_id x)) as [E | (r & Hr & E)].
  - rewrite E. destruct (reserved x); [left; reflexivity|].
    right. exists x. split; [left|]; reflexivity.
  - right. exists r. split; [right; exact Hr | exact E].
Qed.

Lemma cursor_after_newer l c c0 :
  c0 <= c -> c0 <= cursor_after (newer c l) c.
Proof.
  intros H. destruct (cursor_after_origin (newer c l) c) as [-> | (r & Hr & ->)];
    [exact H|].
  apply newer_In in Hr. lia.
Qed.

Lemma newer_all c l : Forall (fun e => c < entry_id e) l -> newer c l = l.
Proof.
  induction 1 as [|x l Hx _ IH]; [reflexivity|].
  cbn [newer List.filter]. apply N.ltb_lt in Hx. rewrite Hx.
  fold (newer c l). rewrite IH. reflexivity.
Qed.

(** Past the entries above the cursor, none of them reserved, the cursor
    is at the end of a stream whose ids grow. *)
Lemma drained_above l : forall c,
  increasing l ->
  Forall (fun r => reserved r = false) (newer c l) ->
  max_id l <= cursor_after (newer c l) c.
Proof.
  induction l as [|x l IH]; intros c Hs Hu; [apply N.le_0_l|].
  apply StronglySorted_inv in Hs as [Hs Hx].
  rewrite max_id_cons. cbn [newer List.filter] in *. fold (newer c l) in *.
  destruct (N.ltb_spec c (entry_id x)) as [Hc | Hc].
  - apply Forall_cons in Hu as [Hrx Hu].
    rewrite cursor_after_cons, Hrx.
    assert (newer c l = l) as El
      by (apply newer_all; eapply Forall_impl; [exact Hx|]; cbn; intros; lia).
    assert (newer (entry_id x) l = l) as El' by (apply newer_all, Hx).
    rewrite El in *.
    pose proof (IH (entry_id x) Hs) as IH'. rewrite El' in IH'.
    specialize (IH' Hu).
    pose proof (cursor_after_newer l (entry_id x) (entry_id x) (N.le_refl _)) as H.
    rewrite El' in H. lia.
  - specialize (IH c Hs Hu).
    pose proof (cursor_after_newer l c (entry_id x) Hc). lia.
Qed.

Lemma append_source_In key s m x :
  In x (map fst (append_source key s m)) -> x = key \/ In x (map fst m).
Proof.
  destruct (append_source_keys key s m) as [-> | ->]; [intros H; right; exact H|].
  intros H. apply in_app_iff in H as [H | [H | []]]; [right; exact H | left; congruence].
Qed.

Lemma append_source_NoDup key s m :
  List.NoDup (map fst m) -> List.NoDup (map fst (append_source key s m)).
Proof.
  induction m as [|[k l] m IH]; cbn [append_source map fst]; intros H.
  - constructor; [intros [] | constructor].
  - apply NoDup_cons_iff in H as [Hk H].
    destruct (String.eqb_spec key k) as [->|Hne]; cbn [map fst].
    + constructor; assumption.
    + constructor; [|apply IH, H].
      intros Hin. apply append_source_In in Hin as [E | Hin]; congruence.
Qed.

Lemma map_sources_NoDup sources : forall m m',
  List.NoDup (map fst m) -> map_sources sources m = Return m' -> List.NoDup (map fst m').
Proof.
  induction sources as [|s sources IH]; intros m m' Hm; cbn [map_sources].
  - intros [= <-]. exact Hm.
  - destruct (_get_task_id s); [|discriminate].
    apply IH, append_source_NoDup, Hm.
Qed.

Lemma answered_absent st (c : string -> N) ids i :
  ~ In i ids -> answered (hex i) (xread st (map hex ids) (map c ids)) = [].
Proof.
  induction ids as [|j ids IH]; intros Hi; [reflexivity|].
  cbn [map xread].
  assert (i <> j) as Hne by (intros ->; apply Hi; left; reflexivity).
  assert (~ In i ids) as Hi' by (intros H; apply Hi; right; exact H).
  destruct (newer (c j) (default [] (st !! hex j))); [apply IH, Hi'|].
  rewrite answered_cons. cbn [fst snd]. rewrite hex_eqb.
  destruct (String.eqb_spec i j); [congruence|]. apply IH, Hi'.
Qed.

Lemma answered_present st (c : string -> N) ids i :
  List.NoDup ids -> In i ids ->
  answered (hex i) (xread st (map hex ids) (map c ids))
  = newer (c i) (default [] (st !! hex i)).
Proof.
  induction 1 as [|j ids Hj Hnd IH]; intros Hi; [destruct Hi|].
  cbn [map xread].
  destruct (String.eqb_spec i j) as [->|Hne].
  - destruct (newer (c j) (default [] (st !! hex j))) as [|e es] eqn:E.
    + apply answered_absent, Hj.
    + rewrite answered_cons. cbn [fst snd]. rewrite String.eqb_refl.
      rewrite (answered_absent st c ids j Hj). apply app_nil_r.
  - destruct Hi as [E | Hi]; [congruence|].
    destruct (newer (c j) (default [] (st !! hex j))); [apply IH, Hi|].
    rewrite answered_cons. cbn [fst snd]. rewrite hex_eqb.
    destruct (String.eqb_spec i j); [congruence|]. apply IH, Hi.
Qed.

Lemma xread_nothing st (c : string -> N) ids :
  (forall i, In i ids -> newer (c i) (default [] (st !! hex i)) = []) ->
  xread st (map hex ids) (map c ids) = [].
Proof.
  induction ids as [|i ids IH]; intros H; [reflexivity|].
  cbn [map xread]. rewrite (H i) by (left; reflexivity).
  apply IH. intros j Hj. apply H. right. exact Hj.
Qed.

Lemma hex_NoDup ids : List.NoDup (map hex ids) -> List.NoDup ids.
Proof. apply List.NoDup_map_inv. Qed.

(** The server keeps the ids of every stream growing. *)
Lemma execute_command_increasing c rd :
  (forall key, increasing (stream_of rd key)) ->
  forall key, increasing (stream_of (snd (execute_command c rd)) key).
Proof.
  intros H key. destruct c as [k value | ms keys ids]; [|apply H].
  unfold stream_of. cbn [execute_command snd streams].
  destruct (String.eqb_spec k key) as [->|Hne];
    [rewrite lookup_insert_eq | rewrite lookup_insert_ne by exact Hne; apply H].
  cbn [default]. unfold id. specialize (H key). unfold stream_of in H.
  fold (stream_of rd key) in *.
  assert (forall l bound, increasing l -> max_id l <= bound ->
            increasing (l ++ [{| entry_id := N.succ bound; entry_value := value |}])%list)
    as Happ.
  { induction l as [|x l IH]; intros bound Hl Hb.
    - constructor; constructor.
    - apply StronglySorted_inv in Hl as [Hl Hx]. rewrite max_id_cons in Hb.
      cbn. constructor; [apply IH; [exact Hl | lia]|].
      apply Forall_app. split; [exact Hx|]. constructor; [cbn; lia | constructor]. }
  apply Happ; [exact H | apply N.le_refl].
Qed.

(** * More about the entry points *)

(** ** What [receive] does to the server and to the cursors *)

(** X1: whatever its arguments and whether it returns or raises,
    [receive] leaves every stream as it is, and sends the server either
    nothing or one command, a read that blocks for at least one
    millisecond. *)
Theorem receive_only_reads
    (loads : string -> option Signal) (sources : list Source)
    (timeout : option Q) (w : World) :
  streams (redis (snd (receive loads sources timeout w))) = streams (redis w)
  /\ (issued (redis (snd (receive loads sources timeout w))) = issued (redis w)
      \/ exists ms keys ids,
           (1 <= ms)%Z
           /\ issued (redis (snd (receive loads sources timeout w)))
              = (issued (redis w) ++ [XREAD ms keys ids])%list).
Proof.
  split; [apply receive_streams|].
  destruct (Qltb (timeout_or_huge timeout) 0) eqn:Ht.
  - left. unfold receive. rewrite Ht. reflexivity.
  - destruct (map_sources sources []) as [m|e] eqn:Hm.
    + right. rewrite (receive_issues loads sources timeout w m Ht Hm).
      eexists _, _, _. split; [apply timeout_ms_positive | reflexivity].
    + left. destruct (receive_unresolved loads sources timeout w e Ht Hm)
        as (_ & -> & _). reflexivity.
Qed.

Lemma receive_cursors_above loads sources timeout w i :
  cursor (worker w) i
  <= cursor (worker (snd (receive loads sources timeout w))) i.
Proof.
  destruct (Qltb (timeout_or_huge timeout) 0) eqn:Ht.
  - unfold receive. rewrite Ht. apply N.le_refl.
  - destruct (map_sources sources []) as [m|e] eqn:Hm.
    + destruct (receive_run loads sources timeout w m Ht Hm)
        as (w1 & (_ & _ & Hc) & ->).
      apply (process_answers_above loads (cursor (worker w)) m (answers_for w m)).
      * intros key es j r Hin Hkey Hr.
        destruct (answers_for_entries w sources m key es Hm Hin)
          as (k & -> & _ & ->).
        unfold hex in Hkey. rewrite hex_to_binary_hex in Hkey.
        injection Hkey as <-. apply newer_In in Hr. lia.
      * intros j. cbn [worker]. rewrite Hc. apply N.le_refl.
    + destruct (receive_unresolved loads sources timeout w e Ht Hm)
        as (_ & _ & _ & Hc).
      rewrite Hc. apply N.le_refl.
Qed.

(** X2: no call of [receive] or [forget] moves a cursor backwards,
    whether the call returns or raises part of the way through the
    answer. *)
Theorem cursors_never_decrease
    (loads : string -> option Signal) (sources : list Source)
    (timeout : option Q) (w : World) (i : ID) :
  cursor (worker w) i
  <= cursor (worker (snd (receive loads sources timeout w))) i
  /\ cursor (worker w) i <= cursor (worker (snd (forget loads sources w))) i.
Proof.
  split; [|rewrite forget_world]; apply receive_cursors_above.
Qed.

Lemma receive_cursor_returns loads sources timeout w m results i :
  map_sources sources [] = Return m ->
  fst (receive loads sources timeout w) = Return results ->
  cursor (worker (snd (receive loads sources timeout w))) i
  = cursor_after (answered (hex i) (answers_for w m)) (cursor (worker w) i).
Proof.
  intros Hm Hr.
  destruct (Qltb (timeout_or_huge timeout) 0) eqn:Ht.
  { unfold receive in Hr. rewrite Ht in Hr. discriminate. }
  destruct (receive_run loads sources timeout w m Ht Hm)
    as (w1 & (_ & _ & Hc) & E).
  rewrite E in Hr |- *.
  rewrite (process_answers_cursor loads m (answers_for w m) [] _ results i
             (answers_for_sourced w sources m Hm) Hr).
  cbn [worker]. rewrite Hc. reflexivity.
Qed.

(** X3: when [receive] returns, the cursor of each stream is the id of
    the last answered entry of that stream that does not carry the
    reserved string, and the cursor it had before when the answer holds no
    such entry for the stream. *)
Theorem receive_leaves_cursor_at_last_signal
    (loads : string -> option Signal) (sources : list Source)
    (timeout : option Q) (w : World) (m : list (string * list Source))
    (results : list (Source * Signal)) (i : ID) :
  map_sources sources [] = Return m ->
  fst (receive loads sources timeout w) = Return results ->
  cursor (worker (snd (receive loads sources timeout w))) i
  = cursor_after (answered (hex i) (answers_for w m)) (cursor (worker w) i).
Proof. apply receive_cursor_returns. Qed.

(** ** Consumers *)

(** X6: what a worker receives does not depend on what another worker
    received before it: each worker reads the streams from its own
    cursors. *)
Theorem consumers_do_not_interfere
    (loads : string -> option Signal)
    (sources_a sources_b : list Source) (timeout_a timeout_b : option Q)
    (a b : Worker) (rd : Redis) (ua ub : list string) :
  fst (receive loads sources_b timeout_b
         {| worker := b;
            redis :=
              redis (snd (receive loads sources_a timeout_a
                            {| worker := a; redis := rd; unpickled := ua |}));
            unpickled := ub |})
  = fst (receive loads sources_b timeout_b
           {| worker := b; redis := rd; unpickled := ub |}).
Proof.
  apply receive_same_value; [|reflexivity].
  cbn [redis]. apply receive_streams.
Qed.

(** X7: [reset] sends nothing to the server and leaves every cursor at
    the initial [0]; a [receive] after it returns what the same call
    returns in a worker that never received anything. *)
Theorem reset_replays
    (loads : string -> option Signal) (sources : list Source)
    (timeout : option Q) (w : World) :
  fst (reset w) = Return tt
  /\ redis (snd (reset w)) = redis w
  /\ (forall i, cursor (worker (snd (reset w))) i = 0)
  /\ fst (receive loads sources timeout (snd (reset w)))
     = fst (receive loads sources timeout
              {| worker :=
                   {| actor_id := actor_id (worker w);
                      current_task_id := current_task_id (worker w);
                      signal_counters := None |};
                 redis := redis w;
                 unpickled := unpickled w |}).
Proof.
  assert (forall i, cursor (worker (snd (reset w))) i = 0) as Hc.
  { intros i. unfold reset, cursor.
    destruct (signal_counters (worker w)) eqn:E; cbn; try rewrite E; cbn;
      try rewrite lookup_empty; reflexivity. }
  assert (redis (snd (reset w)) = redis w) as Hr
    by (unfold reset; destruct (signal_counters (worker w)); reflexivity).
  split; [unfold reset; destruct (signal_counters (worker w)); reflexivity|].
  split; [exact Hr|]. split; [exact Hc|].
  apply receive_same_value.
  - rewrite Hr. reflexivity.
  - intros i. rewrite Hc. unfold cursor. cbn. try rewrite lookup_empty.
    reflexivity.
Qed.

(** ** The exceptions of [receive] *)



(** ** Nothing is received twice, the reserved string apart *)

Lemma answered_Forall (P : Entry -> Prop) key answers :
  Forall (fun answer => Forall P (snd answer)) answers ->
  Forall P (answered key answers).
Proof.
  induction 1 as [|answer answers Ha _ IH]; [constructor|].
  rewrite answered_cons. apply Forall_app. split; [|exact IH].
  destruct (String.eqb (fst answer) key); [exact Ha | constructor].
Qed.

(** Once [receive] has returned an answer without the reserved string,
    nothing is left above the cursors. *)
Lemma receive_drains loads sources timeout w m results :
  map_sources sources [] = Return m ->
  (forall key, increasing (stream_of (redis w) key)) ->
  fst (receive loads sources timeout w) = Return results ->
  Forall (fun answer => Forall (fun r => reserved r = false) (snd answer))
    (answers_for w m) ->
  answers_for (snd (receive loads sources timeout w)) m = [].
Proof.
  intros Hm Hinc Hr Hu.
  pose proof (fun i => receive_cursor_returns loads sources timeout w m results i Hm Hr)
    as Hc.
  pose proof (fun key => answered_Forall _ key _ Hu) as Hua. clear Hu.
  destruct (map_sources_keys sources [] m [] Hm eq_refl) as [ids Hk].
  pose proof (map_sources_NoDup sources [] m (List.NoDup_nil _) Hm) as Hnd.
  rewrite Hk in Hnd. apply hex_NoDup in Hnd.
  unfold answers_for in *. rewrite Hk, cursors_for_hex in *.
  rewrite receive_streams. apply xread_nothing. intros i Hi.
  rewrite Hc. specialize (Hua (hex i)).
  rewrite (answered_present _ _ ids i Hnd Hi) in *.
  apply newer_none. apply drained_above; [apply Hinc | exact Hua].
Qed.

Lemma receive_after_drain loads sources timeout timeout' w m results :
  map_sources sources [] = Return m ->
  (forall key, increasing (stream_of (redis w) key)) ->
  fst (receive loads sources timeout w) = Return results ->
  Forall (fun answer => Forall (fun r => reserved r = false) (snd answer))
    (answers_for w m) ->
  Qltb (timeout_or_huge timeout') 0 = false ->
  fst (receive loads sources timeout' (snd (receive loads sources timeout w)))
  = Return [].
Proof.
  intros Hm Hinc Hr Hu Ht.
  rewrite (receive_value loads sources timeout' _ m w Ht Hm).
  rewrite (receive_drains loads sources timeout w m results Hm Hinc Hr Hu).
  reflexivity.
Qed.

(** X4: on streams whose ids grow, when [receive] returns and no entry
    of the answer carries the reserved string, a second [receive] on the
    same sources, with nothing published in between, finds nothing and
    returns the empty list. *)
Theorem receive_again_returns_nothing
    (loads : string -> option Signal) (sources : list Source)
    (timeout timeout' : option Q) (w : World)
    (m : list (string * list Source)) (results : list (Source * Signal)) :
  map_sources sources [] = Return m ->
  (forall key, increasing (stream_of (redis w) key)) ->
  fst (receive loads sources timeout w) = Return results ->
  Forall (fun answer => Forall (fun r => reserved r = false) (snd answer))
    (answers_for w m) ->
  (0 <= timeout_or_huge timeout')%Q ->
  fst (receive loads sources timeout' (snd (receive loads sources timeout w)))
  = Return [].
Proof.
  intros Hm Hinc Hr Hu Ht. apply Qltb_ge in Ht.
  apply (receive_after_drain loads sources timeout timeout' w m results);
    assumption.
Qed.

(** X5: on streams whose ids grow, when [forget] returns and no entry
    above the cursors carried the reserved string, the [receive] with
    timeout 0 that follows it, with nothing published in between, returns
    the empty list. *)
Theorem forget_then_receive_returns_nothing
    (loads : string -> option Signal) (sources : list Source) (w : World)
    (m : list (string * list Source)) :
  map_sources sources [] = Return m ->
  (forall key, increasing (stream_of (redis w) key)) ->
  fst (forget loads sources w) = Return tt ->
  Forall (fun answer => Forall (fun r => reserved r = false) (snd answer))
    (answers_for w m) ->
  fst (receive loads sources (Some 0%Q) (snd (forget loads sources w)))
  = Return [].
Proof.
  intros Hm Hinc Hf Hu. rewrite forget_world.
  destruct (fst (receive loads sources (Some 0%Q) w)) as [results|e] eqn:Hr.
  - apply (receive_after_drain loads sources (Some 0%Q) (Some 0%Q)
             w m results Hm Hinc Hr Hu).
    reflexivity.
  - unfold forget, bind in Hf.
    destruct (receive loads sources (Some 0%Q) w) as [[a|e'] w']; cbn in *;
      discriminate.
Qed.

(** ** The sources of a stream *)

Lemma sources_of_append_source key k s m :
  sources_of key (append_source k s m)
  = if String.eqb key k then (sources_of key m ++ [s])%list
    else sources_of key m.
Proof.
  induction m as [|[k' l] m IH]; cbn [append_source sources_of].
  - destruct (String.eqb key k); reflexivity.
  - destruct (String.eqb_spec k k') as [->|Hkk']; cbn [sources_of].
    + destruct (String.eqb key k'); reflexivity.
    + rewrite IH.
      destruct (String.eqb_spec key k'); destruct (String.eqb_spec key k);
        congruence.
Qed.

Lemma map_sources_groups sources i : forall m m',
  map_sources sources m = Return m' ->
  sources_of (hex i) m' = (sources_of (hex i) m ++ resolving_to i sources)%list.
Proof.
  induction sources as [|s sources IH]; intros m m'; cbn [map_sources].
  - intros [= <-]. symmetry. apply app_nil_r.
  - unfold resolving_to. cbn [List.filter]. fold (resolving_to i sources).
    destruct (_get_task_id s) as [t|e]; [|discriminate].
    intros H. rewrite (IH _ _ H), sources_of_append_source, hex_eqb.
    destruct (String.eqb t i); [rewrite <- app_assoc|]; reflexivity.
Qed.

(** X8: the mapping [receive] builds from its sources has one key for
    each stream, and lists under the key of a stream exactly the sources
    of the call that resolve to it, in the order of the call and as many
    times as the call names them. *)
Theorem sources_are_grouped_by_stream
    (sources : list Source) (m : list (string * list Source)) (i : ID) :
  map_sources sources [] = Return m ->
  sources_of (hex i) m = resolving_to i sources
  /\ List.NoDup (map fst m)
  /\ (In (hex i) (map fst m) <-> resolving_to i sources <> []).
Proof.
  intros Hm.
  pose proof (map_sources_groups sources i [] m Hm) as Hg. cbn in Hg.
  split; [exact Hg|].
  split; [apply (map_sources_NoDup sources [] m (List.NoDup_nil _) Hm)|].
  rewrite <- Hg. split.
  - apply sources_of_nonempty.
    apply (map_sources_nonempty sources [] m); [constructor | exact Hm].
  - intros Hne. clear Hg Hm.
    induction m as [|[k l] m IH]; cbn [sources_of map fst In] in *;
      [congruence|].
    destruct (String.eqb_spec (hex i) k); [left; congruence | right; auto].
Qed.

(** ** Entries that do not decode *)

Lemma first_entry_raises loads m key r es rest s srcs e results w :
  decode_ascii key = Some key ->
  sources_of key m = s :: srcs ->
  signal_of loads key (entry_value r) = Raise e ->
  for_each (process_answer loads m) ((key, r :: es) :: rest) results w
  = (Raise e, snd (deliver loads key r s results w)).
Proof.
  intros Hk Hs He. cbn [for_each]. apply bind_raise.
  unfold process_answer. cbn [fst snd]. rewrite Hk.
  rewrite (bind_run _ _ w w key) by reflexivity.
  rewrite Hs. cbn [for_each]. apply bind_raise, bind_raise.
  pose proof (deliver_value loads key r s results w) as Hv. rewrite He in Hv.
  destruct (deliver loads key r s results w) as [x w']. cbn in *. congruence.
Qed.

Lemma answers_for_head w sources m key r es rest :
  map_sources sources [] = Return m ->
  answers_for w m = (key, r :: es) :: rest ->
  exists i s srcs,
    key = hex i /\ sources_of key m = s :: srcs
    /\ cursor (worker w) i < entry_id r.
Proof.
  intros Hm Ha.
  assert (In (key, r :: es) (answers_for w m)) as Hin
    by (rewrite Ha; left; reflexivity).
  destruct (answers_for_entries w sources m key _ Hm Hin) as (i & -> & Hi & Hes).
  pose proof (answers_for_sourced w sources m Hm) as Hsrc.
  rewrite Ha in Hsrc. apply Forall_cons in Hsrc as [(k & _ & Hne) _].
  cbn [fst] in Hne.
  destruct (sources_of (hex i) m) as [|s srcs] eqn:Es; [congruence|].
  exists i, s, srcs. split; [reflexivity|]. split; [reflexivity|].
  apply (newer_In _ (stream_of (redis w) (hex i))). rewrite <- Hes.
  left. reflexivity.
Qed.

(** X10: when the first entry of the answer is a hexadecimal value that
    does not unpickle, [receive] raises, and the cursor of the stream has
    already been moved to that entry, which was above it: the cursor is
    stored before the value is unpickled. *)
Theorem unpicklable_entry_is_consumed
    (loads : string -> option Signal) (sources : list Source)
    (timeout : option Q) (w : World) (m : list (string * list Source))
    (i : ID) (r : Entry) (es : list Entry)
    (rest : list (string * list Entry)) (pickled : string) :
  (0 <= timeout_or_huge timeout)%Q ->
  map_sources sources [] = Return m ->
  answers_for w m = (hex i, r :: es) :: rest ->
  hex_to_binary (entry_value r) = Some pickled ->
  decode_ascii (entry_value r) = Some (entry_value r) ->
  loads pickled = None ->
  fst (receive loads sources timeout w) = Raise UnpicklingError
  /\ cursor (worker w) i < entry_id r
  /\ cursor (worker (snd (receive loads sources timeout w))) i = entry_id r.
Proof.
  intros Ht Hm Ha Hhex Hascii Hloads. apply Qltb_ge in Ht.
  destruct (answers_for_head w sources m _ r es rest Hm Ha)
    as (j & s & srcs & Hj & Hs & Hlt).
  apply (f_equal hex_to_binary) in Hj. unfold hex in Hj.
  rewrite !hex_to_binary_hex in Hj. injection Hj as <-.
  assert (reserved r = false) as Hres.
  { unfold reserved. apply String.eqb_neq. intros E. rewrite E in Hhex.
    discriminate. }
  assert (signal_of loads (hex i) (entry_value r) = Raise UnpicklingError) as He.
  { unfold signal_of. rewrite Hascii. fold (reserved r). rewrite Hres.
    unfold hex. rewrite hex_to_binary_hex, Hhex, Hloads. reflexivity. }
  destruct (receive_run loads sources timeout w m Ht Hm)
    as (w1 & (_ & _ & Hc) & ->).
  rewrite Ha, (first_entry_raises loads m (hex i) r es rest s srcs _ [] _
                 (decode_ascii_hex i) Hs He).
  split; [reflexivity|]. split; [exact Hlt|].
  cbn [snd]. rewrite deliver_world, Hascii, Hres. unfold hex.
  rewrite hex_to_binary_hex. cbn [worker].
  rewrite cursor_with_counters, String.eqb_refl. reflexivity.
Qed.

Lemma non_ascii_raises loads sources timeout w m key r es rest :
  Qltb (timeout_or_huge timeout) 0 = false ->
  map_sources sources [] = Return m ->
  answers_for w m = (key, r :: es) :: rest ->
  decode_ascii (entry_value r) = None ->
  fst (receive loads sources timeout w) = Raise UnicodeDecodeError
  /\ forall i, cursor (worker (snd (receive loads sources timeout w))) i
               = cursor (worker w) i.
Proof.
  intros Ht Hm Ha Hr.
  destruct (answers_for_head w sources m _ r es rest Hm Ha)
    as (j & s & srcs & -> & Hs & _).
  assert (signal_of loads (hex j) (entry_value r) = Raise UnicodeDecodeError) as He
    by (unfold signal_of; rewrite Hr; reflexivity).
  destruct (receive_run loads sources timeout w m Ht Hm)
    as (w1 & (_ & _ & Hc) & ->).
  rewrite Ha, (first_entry_raises loads m (hex j) r es rest s srcs _ [] _
                 (decode_ascii_hex j) Hs He).
  split; [reflexivity|]. intros i. cbn [snd]. rewrite deliver_world, Hr.
  cbn [worker]. apply Hc.
Qed.

(** X11: when the first entry of the answer holds a byte that is not
    ASCII, [receive] raises before it stores a cursor: every cursor is as
    it was, and any later [receive] on the same sources, with nothing
    published in between, raises the same error again. *)
Theorem non_ascii_entry_stalls
    (loads : string -> option Signal) (sources : list Source)
    (timeout timeout' : option Q) (w : World)
    (m : list (string * list Source)) (key : string) (r : Entry)
    (es : list Entry) (rest : list (string * list Entry)) :
  (0 <= timeout_or_huge timeout)%Q ->
  (0 <= timeout_or_huge timeout')%Q ->
  map_sources sources [] = Return m ->
  answers_for w m = (key, r :: es) :: rest ->
  decode_ascii (entry_value r) = None ->
  fst (receive loads sources timeout w) = Raise UnicodeDecodeError
  /\ (forall i, cursor (worker (snd (receive loads sources timeout w))) i
                = cursor (worker w) i)
  /\ fst (receive loads sources timeout'
            (snd (receive loads sources timeout w)))
     = Raise UnicodeDecodeError.
Proof.
  intros Ht Ht' Hm Ha Hr. apply Qltb_ge in Ht, Ht'.
  destruct (non_ascii_raises loads sources timeout w m key r es rest Ht Hm Ha Hr)
    as (H1 & Hc).
  split; [exact H1|]. split; [exact Hc|].
  rewrite (receive_same_value loads sources timeout' w _
             (receive_streams loads sources timeout w) Hc).
  apply (non_ascii_raises loads sources timeout' w m key r es rest Ht' Hm Ha Hr).
Qed.

(** ** Signals sent one after the other *)

Lemma max_id_app l1 l2 : max_id (l1 ++ l2) = N.max (max_id l1) (max_id l2).
Proof.
  induction l1 as [|x l1 IH]; [symmetry; apply N.max_0_l|].
  cbn [app]. rewrite !max_id_cons, IH. lia.
Qed.

Lemma stream_of_xadd rd key value :
  stream_of (snd (execute_command (XADD key value) rd)) key
  = (stream_of rd key
     ++ [{| entry_id := N.succ (max_id (stream_of rd key));
            entry_value := value |}])%list.
Proof.
  unfold stream_of at 1. cbn [execute_command snd streams].
  rewrite lookup_insert_eq. reflexivity.
Qed.

(** A consumer that has read a stream to its end reads, after two more
    [XADD]s, the two new entries in the order they were added. *)
Lemma xread_after_xadds rd key v1 v2 :
  xread
    (streams (snd (execute_command (XADD key v2)
                     (snd (execute_command (XADD key v1) rd)))))
    [key] [max_id (stream_of rd key)]
  = [(key,
      [{| entry_id := N.succ (max_id (stream_of rd key)); entry_value := v1 |};
       {| entry_id := N.succ (N.succ (max_id (stream_of rd key)));
          entry_value := v2 |}])].
Proof.
  cbn [xread].
  change (default [] (streams ?r !! key)) with (stream_of r key).
  rewrite !stream_of_xadd, max_id_app, max_id_cons. cbn [max_id fold_right].
  rewrite <- app_assoc. cbn [app].
  unfold newer. rewrite List.filter_app.
  fold (newer (max_id (stream_of rd key)) (stream_of rd key)).
  rewrite newer_none by lia. cbn [app List.filter entry_id].
  replace (N.max (max_id (stream_of rd key))
             (N.max (N.succ (max_id (stream_of rd key))) 0))
    with (N.succ (max_id (stream_of rd key))) by lia.
  destruct (N.ltb_spec (max_id (stream_of rd key))
              (N.succ (max_id (stream_of rd key)))); [|lia].
  destruct (N.ltb_spec (max_id (stream_of rd key))
              (N.succ (N.succ (max_id (stream_of rd key))))); [|lia].
  reflexivity.
Qed.

(** X12: a worker sends [a] and then [b]; a consumer that had read the
    worker's stream to its end then receives, from a source that resolves
    to that stream, [a] and then [b]. *)
Theorem signals_arrive_in_order
    (dumps : Signal -> string) (loads : string -> option Signal)
    (s : Source) (k : ID) (a b : Signal)
    (producer consumer : Worker) (rd : Redis) (timeout : option Q) :
  _get_task_id s = Return k ->
  source_key producer = hex k ->
  cursor consumer k = max_id (stream_of rd (hex k)) ->
  loads (dumps a) = Some a ->
  loads (dumps b) = Some b ->
  (0 <= timeout_or_huge timeout)%Q ->
  fst (receive loads [s] timeout
         {| worker := consumer;
            redis :=
              redis
                (snd (send dumps b
                        (snd (send dumps a
                                {| worker := producer; redis := rd;
                                   unpickled := [] |}))));
            unpickled := [] |})
  = Return [(s, a); (s, b)].
Proof.
  intros Hs Hkey Hcur Ha Hb Ht. apply Qltb_ge in Ht.
  assert (map_sources [s] [] = Return [(hex k, [s])]) as Hm
    by (cbn [map_sources]; rewrite Hs; reflexivity).
  match goal with |- fst (receive _ _ _ ?w0) = _ => set (w := w0) end.
  rewrite (receive_value loads [s] timeout w _ w Ht Hm).
  assert (answers_for w [(hex k, [s])]
          = [(hex k,
              [{| entry_id := N.succ (max_id (stream_of rd (hex k)));
                  entry_value := binary_to_hex (dumps a) |};
               {| entry_id := N.succ (N.succ (max_id (stream_of rd (hex k))));
                  entry_value := binary_to_hex (dumps b) |}])]) as ->.
  { unfold answers_for. cbn [map fst].
    change [hex k] with (map hex [k]) at 2. rewrite cursors_for_hex.
    cbn [map]. subst w. cbn [worker redis]. rewrite Hcur, !send_run.
    cbn [snd redis worker]. rewrite Hkey. apply xread_after_xadds. }
  pose proof (signal_of_encoded dumps loads k a Ha) as Hsa.
  pose proof (signal_of_encoded dumps loads k b Hb) as Hsb.
  rewrite process_answers_decodable.
  - unfold fan_out, copies. cbn [flat_map fst snd sources_of entry_value].
    rewrite String.eqb_refl, Hsa, Hsb. reflexivity.
  - constructor; [|constructor]. split; cbn [fst snd].
    + apply decode_ascii_hex.
    + repeat constructor; eauto.
Qed.

(** ** The theorems above on concrete streams *)

Lemma empty_redis_increasing key : increasing (stream_of Sample.empty_redis key).
Proof.
  unfold stream_of. cbn [Sample.empty_redis streams].
  rewrite lookup_empty. constructor.
Qed.

Lemma one_signal_increasing key : increasing (stream_of Examples.one_signal key).
Proof.
  apply (execute_command_increasing (XADD (hex "a1") "556869") Sample.empty_redis).
  apply empty_redis_increasing.
Qed.

Lemma receive_leaves_cursor_at_last_signal_witness :
  cursor
    (worker
       (snd (receive Sample.loads [Sample.handle] None
               (Sample.world Sample.consumer Sample.after_death))))
    "a1"
  = cursor_after
      (answered (hex "a1")
         (answers_for (Sample.world Sample.consumer Sample.after_death)
            [(hex "a1", [Sample.handle])]))
      (cursor (worker (Sample.world Sample.consumer Sample.after_death)) "a1").
Proof.
  apply (receive_leaves_cursor_at_last_signal Sample.loads [Sample.handle] None
           (Sample.world Sample.consumer Sample.after_death)
           [(hex "a1", [Sample.handle])]
           [(Sample.handle, UserSignal "hi"); (Sample.handle, ActorDiedSignal)]
           "a1").
  - reflexivity.
  - vm_compute. reflexivity.
Defined.

Lemma receive_again_returns_nothing_witness :
  fst (receive Sample.loads [Sample.handle] (Some 0%Q)
         (snd (receive Sample.loads [Sample.handle] None
                 (Sample.world Sample.consumer Examples.one_signal))))
  = Return [].
Proof.
  apply (receive_again_returns_nothing Sample.loads [Sample.handle] None
           (Some 0%Q) (Sample.world Sample.consumer Examples.one_signal)
           [(hex "a1", [Sample.handle])] [(Sample.handle, UserSignal "hi")]).
  - reflexivity.
  - apply one_signal_increasing.
  - vm_compute. reflexivity.
  - vm_compute. repeat constructor.
  - vm_compute. discriminate.
Defined.

Lemma forget_then_receive_returns_nothing_witness :
  fst (receive Sample.loads [Sample.handle] (Some 0%Q)
         (snd (forget Sample.loads [Sample.handle]
                 (Sample.world Sample.consumer Examples.one_signal))))
  = Return [].
Proof.
  apply (forget_then_receive_returns_nothing Sample.loads [Sample.handle]
           (Sample.world Sample.consumer Examples.one_signal)
           [(hex "a1", [Sample.handle])]).
  - reflexivity.
  - apply one_signal_increasing.
  - vm_compute. reflexivity.
  - vm_compute. repeat constructor.
Defined.

Lemma sources_are_grouped_by_stream_witness :
  sources_of (hex "t1")
    [(hex "t1",
      [SrcObjectID {| object_task := "t1"; object_index := 1 |};
       SrcObjectID {| object_task := "t1"; object_index := 2 |}]);
     (hex "a1", [Sample.handle])]
  = resolving_to "t1"
      [SrcObjectID {| object_task := "t1"; object_index := 1 |};
       Sample.handle;
       SrcObjectID {| object_task := "t1"; object_index := 2 |}].
Proof.
  refine (proj1
    (sources_are_grouped_by_stream
       [SrcObjectID {| object_task := "t1"; object_index := 1 |};
        Sample.handle;
        SrcObjectID {| object_task := "t1"; object_index := 2 |}]
       [(hex "t1",
         [SrcObjectID {| object_task := "t1"; object_index := 1 |};
          SrcObjectID {| object_task := "t1"; object_index := 2 |}]);
        (hex "a1", [Sample.handle])]
       "t1" _)).
  reflexivity.
Defined.


Lemma unpicklable_entry_is_consumed_witness :
  fst (receive Sample.loads [Sample.handle] None
         (Sample.world Sample.consumer Examples.unpicklable))
  = Raise UnpicklingError
  /\ cursor (worker (Sample.world Sample.consumer Examples.unpicklable)) "a1" < 1
  /\ cursor
       (worker
          (snd (receive Sample.loads [Sample.handle] None
                  (Sample.world Sample.consumer Examples.unpicklable))))
       "a1"
     = 1.
Proof.
  apply (unpicklable_entry_is_consumed Sample.loads [Sample.handle] None
           (Sample.world Sample.consumer Examples.unpicklable)
           [(hex "a1", [Sample.handle])] "a1"
           {| entry_id := 1; entry_value := "58" |} [] [] "X").
  - vm_compute. discriminate.
  - reflexivity.
  - vm_compute. reflexivity.
  - reflexivity.
  - reflexivity.
  - reflexivity.
Defined.

Lemma non_ascii_entry_stalls_witness :
  fst (receive Sample.loads [Sample.handle] (Some 0%Q)
         (snd (receive Sample.loads [Sample.handle] None
                 (Sample.world Sample.consumer Examples.not_ascii))))
  = Raise UnicodeDecodeError.
Proof.
  refine (proj2 (proj2
    (non_ascii_entry_stalls Sample.loads [Sample.handle] None (Some 0%Q)
       (Sample.world Sample.consumer Examples.not_ascii)
       [(hex "a1", [Sample.handle])] (hex "a1")
       {| entry_id := 1; entry_value := String "200"%char EmptyString |} [] []
       _ _ _ _ _))).
  - vm_compute. discriminate.
  - vm_compute. discriminate.
  - reflexivity.
  - vm_compute. reflexivity.
  - reflexivity.
Defined.

Lemma signals_arrive_in_order_witness :
  fst (receive Sample.loads [Sample.handle] None
         {| worker := Sample.consumer;
            redis :=
              redis
                (snd (send Sample.dumps (ErrorSignal "two")
                        (snd (send Sample.dumps (UserSignal "one")
                                {| worker := Sample.actor;
                                   redis := Sample.empty_redis;
                                   unpickled := [] |}))));
            unpickled := [] |})
  = Return [(Sample.handle, UserSignal "one"); (Sample.handle, ErrorSignal "two")].
Proof.
  apply (signals_arrive_in_order Sample.dumps Sample.loads Sample.handle "a1"
           (UserSignal "one") (ErrorSignal "two") Sample.actor Sample.consumer
           Sample.empty_redis None).
  - reflexivity.
  - reflexivity.
  - reflexivity.
  - reflexivity.
  - reflexivity.
  - vm_compute. discriminate.
Defined.

(** ** Nothing new, and where the results come from *)



Lemma copies_In loads key srcs r s signal :
  In (s, signal) (copies loads key srcs r) ->
  In s srcs /\ signal_of loads key (entry_value r) = Return signal.
Proof.
  unfold copies. destruct (signal_of loads key (entry_value r)) as [sig|];
    [|intros []].
  intros H. apply in_map_iff in H as (s' & [= -> ->] & Hs). split; [exact Hs | reflexivity].
Qed.

(** X14: every pair [receive] returns names a source of the call, paired
    with the signal of an entry that lies above the worker's cursor in the
    stream that source resolves to. *)
Theorem received_signals_come_from_the_sources
    (loads : string -> option Signal) (sources : list Source)
    (timeout : option Q) (w : World)
    (results : list (Source * Signal)) (s : Source) (signal : Signal) :
  fst (receive loads sources timeout w) = Return results ->
  In (s, signal) results ->
  In s sources
  /\ exists i r,
       _get_task_id s = Return i
       /\ In r (stream_of (redis w) (hex i))
       /\ cursor (worker w) i < entry_id r
       /\ signal_of loads (hex i) (entry_value r) = Return signal.
Proof.
  intros Hr Hin.
  destruct (Qltb (timeout_or_huge timeout) 0) eqn:Ht.
  { unfold receive in Hr. rewrite Ht in Hr. discriminate. }
  destruct (map_sources sources []) as [m|e] eqn:Hm.
  2:{ rewrite (proj1 (receive_unresolved loads sources timeout w e Ht Hm)) in Hr.
      discriminate. }
  rewrite (receive_returns_fan_out loads sources timeout w m results Hm Hr) in Hin.
  unfold fan_out in Hin.
  apply in_flat_map in Hin as ([key es] & Ha & Hin).
  apply in_flat_map in Hin as (r & Hes & Hin). cbn [fst snd] in *.
  apply copies_In in Hin as [Hs Hsig].
  destruct (answers_for_entries w sources m key es Hm Ha) as (i & -> & _ & ->).
  rewrite (map_sources_groups sources i [] m Hm) in Hs. cbn [sources_of app] in Hs.
  unfold resolving_to in Hs. apply filter_In in Hs as [Hsrc Hres].
  split; [exact Hsrc|].
  destruct (_get_task_id s) as [t|] eqn:Et; [|discriminate].
  apply String.eqb_eq in Hres. subst t.
  exists i, r. split; [reflexivity|].
  split; [|split; [eapply newer_In, Hes | exact Hsig]].
  unfold newer in Hes. apply filter_In in Hes. apply Hes.
Qed.

Lemma received_signals_come_from_the_sources_witness :
  In Sample.handle [SrcTaskID "t1"; Sample.handle]
  /\ exists i r,
       _get_task_id Sample.handle = Return i
       /\ In r (stream_of
                  (redis (Sample.world Sample.consumer Examples.one_signal))
                  (hex i))
       /\ cursor (worker (Sample.world Sample.consumer Examples.one_signal)) i
          < entry_id r
       /\ signal_of Sample.loads (hex i) (entry_value r) = Return (UserSignal "hi").
Proof.
  apply (received_signals_come_from_the_sources Sample.loads
           [SrcTaskID "t1"; Sample.handle] None
           (Sample.world Sample.consumer Examples.one_signal)
           [(Sample.handle, UserSignal "hi")]).
  - vm_compute. reflexivity.
  - left. reflexivity.
Defined.
